(** * PeerJS File Share: the transfer protocol of [src/App.tsx]

    A shallow embedding of the message handler ([wireConnection]), of the
    sender pipeline ([sendFile], [waitForAck]) and of two peers joined by an
    ordered, loss-free channel, followed by the properties of the transfer
    protocol. *)

From Stdlib Require Import ZArith NArith QArith Qround Qpower.
From Stdlib Require Import List String Lia Lqa.
From Stdlib.Strings Require Import Byte.
Import ListNotations.

Set Implicit Arguments.

(* ================================================================== *)
(** ** The numbers of JavaScript the program computes with

    Sizes, offsets and byte counts are non-negative integers (type [N]);
    they stay below 2^53, where the arithmetic of doubles on integers is
    exact.  The two places where the program divides, [Math.ceil(a / b)] and
    [Math.floor((a / b) * 100)], are computed in binary64: every operation
    rounds its exact result to 53 significant bits, to nearest, ties to
    even.  The exponent range is not modelled: the quotients of integers
    below 2^53 and their products with 100 are far from overflow and
    underflow. *)

Module JS.

Local Open Scope Q_scope.

(** The results the program stores or reports: an integer, [Infinity] or
    [NaN]. *)
Inductive num : Type :=
| Int (z : Z)
| Infinity
| NaN.

Definition pow2 (e : Z) : Q := Qpower 2 e.

(** [floor (log2 x)] for [0 < x]. *)
Definition ilog2 (x : Q) : Z :=
  let k := (Z.log2 (Qnum x) - Z.log2 (Zpos (Qden x)))%Z in
  if Qle_bool (pow2 k) x then k else (k - 1)%Z.

(** Rounding to the nearest integer, ties to the even one. *)
Definition rne (y : Q) : Z :=
  let f := Qfloor y in
  match Qcompare (y - inject_Z f) (1 # 2) with
  | Lt => f
  | Gt => (f + 1)%Z
  | Eq => if Z.even f then f else (f + 1)%Z
  end.

(** The exponent of the unit in the last place of [x]. *)
Definition expo (x : Q) : Z := (ilog2 x - 52)%Z.

(** Rounding of a non-negative real to binary64 (53 significant bits). *)
Definition fl (x : Q) : Q :=
  if Qle_bool x 0 then 0
  else inject_Z (rne (x / pow2 (expo x))) * pow2 (expo x).

Definition NtoQ (a : N) : Q := inject_Z (Z.of_N a).

(** [a / b] for [0 < b]. *)
Definition div (a b : N) : Q := fl (NtoQ a / NtoQ b).

(** [x * 100]. *)
Definition mul100 (x : Q) : Q := fl (x * 100).

(** [Math.ceil(a / b)]: [a / 0] is [Infinity], [0 / 0] is [NaN]. *)
Definition ceil_div (a b : N) : num :=
  if (b =? 0)%N then (if (a =? 0)%N then NaN else Infinity)
  else Int (Qceiling (div a b)).

(** [Math.min(100, Math.floor((a / b) * 100))]: [Math.min(100, Infinity)]
    is [100], [Math.min(100, NaN)] is [NaN]. *)
Definition percent (a b : N) : num :=
  if (b =? 0)%N then (if (a =? 0)%N then NaN else Int 100)
  else Int (Z.min 100 (Qfloor (mul100 (div a b)))).

End JS.

Local Open Scope N_scope.

(* ================================================================== *)
(** ** Messages *)

(** An [ArrayBuffer]. *)
Definition ArrayBuffer := list byte.

Definition byteLength (b : ArrayBuffer) : N := N.of_nat (List.length b).

Record Meta : Type := mkMeta {
  name : string;
  size : N;
  mime : string;
  chunkSize : N
}.

Inductive IncomingMessage : Type :=
| meta (m : Meta)
| chunk (index : Z) (payload : ArrayBuffer)
| eof
| ack (index : Z).

(** A [File]: its name, its type and its bytes. *)
Record File : Type := mkFile {
  file_name : string;
  file_type : string;
  file_bytes : ArrayBuffer
}.

Definition file_size (f : File) : N := byteLength (file_bytes f).

(** [file.slice(a, b)] followed by [arrayBuffer()]: the bytes from [a] up to
    [b], the end clamped to the size of the file. *)
Definition slice (f : File) (a b : N) : ArrayBuffer :=
  firstn (N.to_nat (b - a)) (skipn (N.to_nat a) (file_bytes f)).

(* ================================================================== *)
(** ** The state of a peer and what a handler does to the outside *)

Definition DataConnection := nat.

Inductive Status : Type :=
| Connected
| Disconnected
| Sending
| Sent
| Received_file.

(** The [useRef] cells of [App]. *)
Record Refs : Type := mkRefs {
  receiveBuffers : list ArrayBuffer;
  expectedChunks : JS.num;
  receivedBytes : N;
  metaRef : option Meta;
  busyRef : bool
}.

(** The calls a handler makes: [c.send], the [useState] setters and the
    download of the reassembled [Blob]. *)
Inductive Effect : Type :=
| Send (msg : IncomingMessage)
| SetRecvProgress (p : JS.num)
| SetSendProgress (p : JS.num)
| SetStatus (s : Status)
| SetConnected (b : bool)
| SetConn (c : option DataConnection)
| Download (download : string) (type : string) (blob : ArrayBuffer).

(** The refs of a freshly mounted [App]. *)
Definition initial_refs : Refs :=
  {| receiveBuffers := [];
     expectedChunks := JS.Int 0;
     receivedBytes := 0;
     metaRef := None;
     busyRef := false |}.

(** The listener of ["data"] in [wireConnection]. *)
Definition onData (r : Refs) (msg : IncomingMessage) : Refs * list Effect :=
  match msg with
  | meta m =>
      ({| receiveBuffers := [];
          expectedChunks := JS.ceil_div (size m) (chunkSize m);
          receivedBytes := 0;
          metaRef := Some m;
          busyRef := busyRef r |},
       [SetRecvProgress (JS.Int 0); Send (ack (-1)%Z)])
  | chunk index payload =>
      let bytes := receivedBytes r + byteLength payload in
      ({| receiveBuffers := receiveBuffers r ++ [payload];
          expectedChunks := expectedChunks r;
          receivedBytes := bytes;
          metaRef := metaRef r;
          busyRef := busyRef r |},
       match metaRef r with
       | Some m => [SetRecvProgress (JS.percent bytes (size m))]
       | None => []
       end ++ [Send (ack index)])
  | eof =>
      match metaRef r with
      | None => (r, [])
      | Some m =>
          (r, [Download (name m) (mime m) (List.concat (receiveBuffers r));
               SetStatus Received_file;
               SetRecvProgress (JS.Int 100)])
      end
  | ack _ =>
      ({| receiveBuffers := receiveBuffers r;
          expectedChunks := expectedChunks r;
          receivedBytes := receivedBytes r;
          metaRef := metaRef r;
          busyRef := false |}, [])
  end.

(** The listener of ["close"] in [wireConnection]: it touches no ref. *)
Definition onClose (r : Refs) : Refs * list Effect :=
  (r, [SetConnected false; SetConn None; SetStatus Disconnected]).

(* ================================================================== *)
(** ** The sender pipeline

    [sendFile] is an [async] function: it suspends at
    [await slice.arrayBuffer()] and at [await waitForAck()], where the
    handlers of the connection can run.  [Pipeline] is the point the function
    has reached, with its locals [offset] and [index]: [Ready] before the
    call, [LoopTest] at the head of the loop, [WaitForAck] suspended before
    the [send] of a piece ([pending] is its buffer) or of the end marker
    ([pending] is [None]), [Returned] at the end.  Stopping at the head of
    the loop as well only adds schedules.

    The section variables are what the closure of [sendFile] has captured:
    [chunk_size] is the constant [chunkSize] of [App], [file] and [conn]
    are the state values [file] and [conn] of the render that created the
    closure, both non-null past the guard of line 132. *)

Inductive Pipeline : Type :=
| Ready
| LoopTest (offset index : N)
| WaitForAck (offset index : N) (pending : option ArrayBuffer)
| Returned.

Definition set_busy (b : bool) (r : Refs) : Refs :=
  {| receiveBuffers := receiveBuffers r;
     expectedChunks := expectedChunks r;
     receivedBytes := receivedBytes r;
     metaRef := metaRef r;
     busyRef := b |}.

(** One run of [trySend] inside [waitForAck]: [Some] when the promise is
    resolved, [None] when [setTimeout(trySend, 8)] is scheduled instead. *)
Definition waitForAck (conn : option DataConnection) (r : Refs) : option Refs :=
  match conn with
  | None => Some r
  | Some _ => if busyRef r then None else Some (set_busy true r)
  end.

Definition octet_stream : string := "application/octet-stream".

Section Transfer.

Variable chunk_size : N.
Variable file : File.
Variable conn : DataConnection.

(** The descriptor built at lines 135-141. *)
Definition descriptor : Meta :=
  {| name := file_name file;
     size := file_size file;
     mime := if String.eqb (file_type file) EmptyString then octet_stream else file_type file;
     chunkSize := chunk_size |}.

(** [sendFile] from one suspension to the next.  [None]: the pipeline stays
    where it is (the flag is set and [trySend] re-arms its timer, or the
    function has returned). *)
Definition sendFile (p : Pipeline) (r : Refs)
  : option (Pipeline * Refs * list Effect) :=
  match p with
  | Ready =>
      Some (LoopTest 0 0, r,
            [SetStatus Sending; SetSendProgress (JS.Int 0); Send (meta descriptor)])
  | LoopTest offset index =>
      if offset <? file_size file
      then Some (WaitForAck offset index
                   (Some (slice file offset (offset + chunk_size))), r, [])
      else Some (WaitForAck offset index None, r, [])
  | WaitForAck offset index pending =>
      match waitForAck (Some conn) r with
      | None => None
      | Some r' =>
          match pending with
          | Some buf =>
              let offset' := offset + chunk_size in
              Some (LoopTest offset' (index + 1), r',
                    [Send (chunk (Z.of_N index) buf);
                     SetSendProgress (JS.percent offset' (file_size file))])
          | None =>
              Some (Returned, r',
                    [Send eof; SetSendProgress (JS.Int 100); SetStatus Sent])
          end
      end
  | Returned => None
  end.

(* ================================================================== *)
(** ** Two peers and the channel between them

    The sending peer runs [sendFile]; both peers run [onData] on what the
    channel delivers.  The channel is ordered and loss-free while it is
    open: a queue in each direction.  The logs record every call a peer
    makes, the inboxes every message delivered to it. *)

Record World : Type := mkWorld {
  pipeline : Pipeline;
  sender_refs : Refs;
  sender_log : list Effect;
  sender_inbox : list IncomingMessage;
  receiver_refs : Refs;
  receiver_log : list Effect;
  receiver_inbox : list IncomingMessage;
  to_receiver : list IncomingMessage;
  to_sender : list IncomingMessage;
  open : bool
}.

(** The messages passed to [send] in a log. *)
Definition sends (es : list Effect) : list IncomingMessage :=
  flat_map (fun e => match e with Send m => [m] | _ => [] end) es.

(** What a call to [send] puts in the channel: a closed connection
    transmits nothing. *)
Definition transmit (is_open : bool) (queue : list IncomingMessage)
           (es : list Effect) : list IncomingMessage :=
  if is_open then queue ++ sends es else queue.

Definition initial_world : World :=
  {| pipeline := Ready;
     sender_refs := initial_refs;
     sender_log := [];
     sender_inbox := [];
     receiver_refs := initial_refs;
     receiver_log := [];
     receiver_inbox := [];
     to_receiver := [];
     to_sender := [];
     open := true |}.

(** What the event loop of the two browsers can run next. *)
Inductive Event : Type :=
| Resume            (* the sender's pipeline runs to its next suspension *)
| ReceiverData      (* "data" on the receiving peer *)
| SenderData        (* "data" on the sending peer *)
| Close.            (* "close" on both peers *)

Definition fire (w : World) (e : Event) : option World :=
  match e with
  | Resume =>
      match sendFile (pipeline w) (sender_refs w) with
      | None => None
      | Some (p, r, es) =>
          Some {| pipeline := p;
                  sender_refs := r;
                  sender_log := sender_log w ++ es;
                  sender_inbox := sender_inbox w;
                  receiver_refs := receiver_refs w;
                  receiver_log := receiver_log w;
                  receiver_inbox := receiver_inbox w;
                  to_receiver := transmit (open w) (to_receiver w) es;
                  to_sender := to_sender w;
                  open := open w |}
      end
  | ReceiverData =>
      match open w, to_receiver w with
      | true, msg :: q =>
          let (r, es) := onData (receiver_refs w) msg in
          Some {| pipeline := pipeline w;
                  sender_refs := sender_refs w;
                  sender_log := sender_log w;
                  sender_inbox := sender_inbox w;
                  receiver_refs := r;
                  receiver_log := receiver_log w ++ es;
                  receiver_inbox := receiver_inbox w ++ [msg];
                  to_receiver := q;
                  to_sender := to_sender w ++ sends es;
                  open := true |}
      | _, _ => None
      end
  | SenderData =>
      match open w, to_sender w with
      | true, msg :: q =>
          let (r, es) := onData (sender_refs w) msg in
          Some {| pipeline := pipeline w;
                  sender_refs := r;
                  sender_log := sender_log w ++ es;
                  sender_inbox := sender_inbox w ++ [msg];
                  receiver_refs := receiver_refs w;
                  receiver_log := receiver_log w;
                  receiver_inbox := receiver_inbox w;
                  to_receiver := to_receiver w ++ sends es;
                  to_sender := q;
                  open := true |}
      | _, _ => None
      end
  | Close =>
      if open w then
        let (rs, es) := onClose (sender_refs w) in
        let (rr, er) := onClose (receiver_refs w) in
        Some {| pipeline := pipeline w;
                sender_refs := rs;
                sender_log := sender_log w ++ es;
                sender_inbox := sender_inbox w;
                receiver_refs := rr;
                receiver_log := receiver_log w ++ er;
                receiver_inbox := receiver_inbox w;
                to_receiver := to_receiver w;
                to_sender := to_sender w;
                open := false |}
      else None
  end.

Definition step (w w' : World) : Prop := exists e, fire w e = Some w'.

Inductive reachable : World -> Prop :=
| reachable_initial : reachable initial_world
| reachable_step w w' : reachable w -> step w w' -> reachable w'.

(** A schedule run from a world. *)
Fixpoint run (w : World) (es : list Event) : option World :=
  match es with
  | [] => Some w
  | e :: es' =>
      match fire w e with
      | Some w' => run w' es'
      | None => None
      end
  end.

(** The messages the sender has passed to [conn.send], the acknowledgements
    delivered to it, and the difference of their numbers. *)
Definition sent (w : World) : list IncomingMessage := sends (sender_log w).

Definition is_ack (msg : IncomingMessage) : bool :=
  match msg with ack _ => true | _ => false end.

Definition acknowledged (w : World) : list IncomingMessage :=
  filter is_ack (sender_inbox w).

Definition outstanding (w : World) : Z :=
  Z.of_nat (List.length (sent w)) - Z.of_nat (List.length (acknowledged w)).

End Transfer.

(** The piece size of [App] (line 35). *)
Definition App_chunkSize : N := 16 * 1024.

(* ================================================================== *)
(** ** Views of a log and of a run, used to state the properties *)

(** The payloads of the pieces among some messages, in order. *)
Definition pieces (msgs : list IncomingMessage) : list ArrayBuffer :=
  flat_map (fun m => match m with chunk _ payload => [payload] | _ => [] end) msgs.

(** The values passed to [setSendProgress] and to [setRecvProgress]. *)
Definition send_progress (es : list Effect) : list JS.num :=
  flat_map (fun e => match e with SetSendProgress p => [p] | _ => [] end) es.

Definition recv_progress (es : list Effect) : list JS.num :=
  flat_map (fun e => match e with SetRecvProgress p => [p] | _ => [] end) es.

(** The artifacts handed to the browser for saving. *)
Definition downloads (es : list Effect) : list (string * string * ArrayBuffer) :=
  flat_map (fun e => match e with
                     | Download n t b => [(n, t, b)]
                     | _ => []
                     end) es.

(** [Math.ceil] of the exact quotient, on integers. *)
Definition ceiling_quotient (a b : N) : N := (a + b - 1) / b.

(** A report is a percentage when it is an integer of 0..100. *)
Definition is_percentage (p : JS.num) : Prop :=
  match p with
  | JS.Int z => (0 <= z <= 100)%Z
  | _ => False
  end.

(** The order of reports: integers by [<=]; a non-finite report is in order
    with nothing. *)
Definition num_le (p q : JS.num) : Prop :=
  match p, q with
  | JS.Int x, JS.Int y => (x <= y)%Z
  | _, _ => False
  end.

Fixpoint non_decreasing (l : list JS.num) : Prop :=
  match l with
  | [] => True
  | p :: l' =>
      match l' with
      | [] => True
      | q :: _ => num_le p q
      end /\ non_decreasing l'
  end.

(** Handling a sequence of deliveries in order, from given refs. *)
Fixpoint handle_all (r : Refs) (msgs : list IncomingMessage)
  : Refs * list Effect :=
  match msgs with
  | [] => (r, [])
  | msg :: rest =>
      let (r1, es1) := onData r msg in
      let (r2, es2) := handle_all r1 rest in
      (r2, es1 ++ es2)
  end.

(** Any number of moves of the event loop. *)
Inductive steps (chunk_size : N) (file : File) (conn : DataConnection)
  (w : World) : World -> Prop :=
| steps_refl : steps chunk_size file conn w w
| steps_step w1 w2 :
    steps chunk_size file conn w w1 ->
    step chunk_size file conn w1 w2 ->
    steps chunk_size file conn w w2.

(** A schedule in which every message is delivered, and its
    acknowledgement too, before the pipeline is resumed: for a file of two
    pieces. *)
Definition lockstep : list Event :=
  [Resume; ReceiverData; SenderData;
   Resume; Resume; ReceiverData; SenderData;
   Resume; Resume; ReceiverData; SenderData;
   Resume; Resume; ReceiverData].

(** Two small files for the examples. *)
Definition empty_file : File :=
  {| file_name := "empty.bin"; file_type := EmptyString; file_bytes := [] |}.

Definition three_bytes : File :=
  {| file_name := "abc.txt"; file_type := "text/plain";
     file_bytes := [x61; x62; x63]%byte |}.

(* ================================================================== *)
(** ** The shape of a transfer, used to state the invariants *)

Section Shape.

Variable chunk_size : N.
Variable file : File.

(** The piece of index [i], as the loop of [sendFile] builds it. *)
Definition piece (i : N) : IncomingMessage :=
  chunk (Z.of_N i) (slice file (i * chunk_size) (i * chunk_size + chunk_size)).

Definition first_pieces (k : nat) : list IncomingMessage :=
  map (fun i => piece (N.of_nat i)) (seq 0 k).

(** The report of the sender after the piece of index [i]. *)
Definition report (i : nat) : JS.num :=
  JS.percent (N.of_nat (S i) * chunk_size) (file_size file).

(** The loop invariant of [sendFile], at [index]. *)
Definition at_index (index : N) (msgs : list IncomingMessage)
           (reports : list JS.num) : Prop :=
  msgs = meta (descriptor chunk_size file) :: first_pieces (N.to_nat index) /\
  reports = JS.Int 0 :: map report (seq 0 (N.to_nat index)) /\
  (index = 0 \/ (index - 1) * chunk_size < file_size file).

Definition sender_invariant (w : World) : Prop :=
  match pipeline w with
  | Ready => sent w = [] /\ send_progress (sender_log w) = []
  | LoopTest offset index =>
      offset = index * chunk_size /\
      at_index index (sent w) (send_progress (sender_log w))
  | WaitForAck offset index (Some buf) =>
      offset = index * chunk_size /\
      at_index index (sent w) (send_progress (sender_log w)) /\
      offset < file_size file /\
      buf = slice file offset (offset + chunk_size)
  | WaitForAck offset index None =>
      offset = index * chunk_size /\
      at_index index (sent w) (send_progress (sender_log w)) /\
      file_size file <= offset
  | Returned =>
      exists index msgs reports,
        at_index index msgs reports /\
        file_size file <= index * chunk_size /\
        sent w = msgs ++ [eof] /\
        send_progress (sender_log w) = reports ++ [JS.Int 100]
  end.

(** How many more messages a pipeline can send without a new
    acknowledgement: one if the flag is clear, none if it is set. *)
Definition sends_left (r : Refs) : nat := if busyRef r then 0%nat else 1%nat.

Definition is_chunk (msg : IncomingMessage) : bool :=
  match msg with chunk _ _ => true | _ => false end.

(** Between two rounds of a transfer in which every message is delivered
    before the next one leaves: the loop is at [index], the flag is clear
    and the channel is empty. *)
Definition quiet (index : N) (w : World) : Prop :=
  pipeline w = LoopTest (index * chunk_size) index /\
  busyRef (sender_refs w) = false /\
  to_receiver w = [] /\ to_sender w = [] /\ open w = true.

Definition acks_only (msgs : list IncomingMessage) : Prop :=
  Forall (fun m => is_ack m = true) msgs.

(** What the channel guarantees, and what the receiving peer has done with
    its deliveries. *)
Definition channel_invariant (w : World) : Prop :=
  acks_only (to_sender w) /\
  acks_only (sender_inbox w) /\
  (exists dropped,
      sent w = receiver_inbox w ++ to_receiver w ++ dropped /\
      (open w = true -> dropped = [])) /\
  receiver_refs w = fst (handle_all initial_refs (receiver_inbox w)) /\
  receiver_log w =
    snd (handle_all initial_refs (receiver_inbox w)) ++
    (if open w then [] else snd (onClose (receiver_refs w))).

Definition invariant (w : World) : Prop :=
  sender_invariant w /\ channel_invariant w.

(** How far the sender can be ahead of the acknowledgements: one message
    with the flag clear, two with the flag set. *)
Definition window (w : World) : Prop :=
  (pipeline w = Ready -> busyRef (sender_refs w) = false) /\
  (List.length (sent w)
   <= List.length (sender_inbox w) + (if busyRef (sender_refs w) then 2 else 1))%nat.

End Shape.

(** Refs in the middle of a transfer of five pieces, one piece stored, and
    a descriptor of two pieces. *)
Definition refs_missing_pieces : Refs :=
  {| receiveBuffers := [[x61%byte]];
     expectedChunks := JS.Int 5;
     receivedBytes := 1;
     metaRef := Some (mkMeta "abc.txt" 10 "text/plain" 2);
     busyRef := false |}.

Definition big_descriptor : Meta :=
  {| name := "big.bin"; size := 16385; mime := octet_stream; chunkSize := 16384 |}.



(* ================================================================== *)
(** ** Further views, used to state what the handler and the pipeline keep *)

(** The quotient of byte counts nearest below 1: [1 - 2^-53]. *)
Definition below_one : Q := (9007199254740991 # 9007199254740992)%Q.

(** The byte counter agrees with the buffers stored. *)
Definition counted (r : Refs) : Prop :=
  receivedBytes r = byteLength (List.concat (receiveBuffers r)).

(** The acknowledgements answering some deliveries: index -1 for a
    descriptor, its own index for a piece, none for anything else. *)
Definition acks_for (msgs : list IncomingMessage) : list IncomingMessage :=
  flat_map (fun m => match m with
                     | meta _ => [ack (-1)%Z]
                     | chunk index _ => [ack index]
                     | _ => []
                     end) msgs.

Section WholeTransfer.

Variable chunk_size : N.
Variable file : File.

(** Everything [sendFile] sends for [file], from the descriptor to the end
    marker. *)
Definition whole_transfer : list IncomingMessage :=
  meta (descriptor chunk_size file)
  :: first_pieces chunk_size file
       (N.to_nat (ceiling_quotient (file_size file) chunk_size))
  ++ [eof].

End WholeTransfer.

(** With the flag set and [sendFile] not returned, an acknowledgement is
    still to come. *)
Definition awaited (w : World) : Prop :=
  busyRef (sender_refs w) = true -> pipeline w <> Returned ->
  (List.length (sender_inbox w) < List.length (acks_for (sent w)))%nat.

(** Nothing is in the channel. *)
Definition drained (w : World) : Prop :=
  to_receiver w = [] /\ to_sender w = [].

(** The file of three bytes in pieces of two: the world in the middle of the
    transfer, with piece 0 sent and the descriptor just delivered, and the
    world at its end, after [lockstep]. *)
Definition mid_world : World :=
  Eval vm_compute in
    match run 2 three_bytes 7%nat initial_world
              [Resume; Resume; Resume; ReceiverData] with
    | Some w => w
    | None => initial_world
    end.

Definition done_world : World :=
  Eval vm_compute in
    match run 2 three_bytes 7%nat initial_world lockstep with
    | Some w => w
    | None => initial_world
    end.


(* ================================================================== *)
(** ** The state of the component and its callbacks

    The [useState] values that the connection callbacks, [connect],
    [disconnect] and the file input write, and that the buttons read. *)

Module UI.

(** The texts passed to [setStatus]: those of the transfer ([Status]) and
    those of the connection. *)
Inductive StatusText : Type :=
| Idle
| Starting
| PeerReady
| Connecting
| Error (err : string)
| Protocol (s : Status).

Record View : Type := mkView {
  status : StatusText;
  connected : bool;
  conn : option DataConnection;
  file : option File;
  remoteId : string;
  peerRef : bool;
  sendProgress : JS.num;
  recvProgress : JS.num
}.

(** The state of a freshly mounted [App]. *)
Definition initial : View :=
  {| status := Idle;
     connected := false;
     conn := None;
     file := None;
     remoteId := EmptyString;
     peerRef := false;
     sendProgress := JS.Int 0;
     recvProgress := JS.Int 0 |}.

(** One call of a setter. *)
Definition set (v : View) (e : Effect) : View :=
  match e with
  | SetStatus s =>
      mkView (Protocol s) (connected v) (conn v) (file v) (remoteId v)
             (peerRef v) (sendProgress v) (recvProgress v)
  | SetConnected b =>
      mkView (status v) b (conn v) (file v) (remoteId v)
             (peerRef v) (sendProgress v) (recvProgress v)
  | SetConn c =>
      mkView (status v) (connected v) c (file v) (remoteId v)
             (peerRef v) (sendProgress v) (recvProgress v)
  | SetSendProgress p =>
      mkView (status v) (connected v) (conn v) (file v) (remoteId v)
             (peerRef v) p (recvProgress v)
  | SetRecvProgress p =>
      mkView (status v) (connected v) (conn v) (file v) (remoteId v)
             (peerRef v) (sendProgress v) p
  | Send _ => v
  | Download _ _ _ => v
  end.

(** The states that can be rendered while a callback of the connection
    calls its setters, one after each call. *)
Fixpoint renders (v : View) (es : list Effect) : list View :=
  match es with
  | [] => []
  | e :: es' => set v e :: renders (set v e) es'
  end.

(** The setters of [wireConnection] (lines 71-73). *)
Definition wireConnection (c : DataConnection) : list Effect :=
  [SetConn (Some c); SetConnected true; SetStatus Connected].

(** [connect] (lines 123-129): the peer id to connect to, if any. *)
Definition connect (v : View) : View * option string :=
  if negb (peerRef v) || String.eqb (remoteId v) EmptyString
  then (v, None)
  else (mkView Connecting (connected v) (conn v) (file v) (remoteId v)
               (peerRef v) (sendProgress v) (recvProgress v),
        Some (remoteId v)).

(** [disconnect] (lines 182-187): the connection it closes, if any.  It is
    a click handler: its three setters are applied together. *)
Definition disconnect (v : View) : View * option DataConnection :=
  (mkView Idle false None (file v) (remoteId v)
          (peerRef v) (sendProgress v) (recvProgress v),
   conn v).

(** The guard of [sendFile] (line 132). *)
Definition sendFile_guard (v : View) : option (File * DataConnection) :=
  match file v, conn v with
  | Some f, Some c => Some (f, c)
  | _, _ => None
  end.

(** [disabled] of the button "Send File" (line 269). *)
Definition send_disabled (v : View) : bool :=
  negb (connected v) || match file v with Some _ => false | None => true end.

(** What can run between two renders: the effect that creates the peer
    (lines 44-47), the listeners of the peer and of a connection, the
    pipeline resumed, and the handlers of the inputs. *)
Inductive Callback : Type :=
| Mounted
| PeerOpen
| Failed (err : string)
| Wire (c : DataConnection)
| Closed (r : Refs)
| Data (r : Refs) (msg : IncomingMessage)
| Resumed (chunk_size : N) (f : File) (c : DataConnection)
          (p : Pipeline) (r : Refs)
| ClickConnect
| ClickDisconnect
| ChooseFile (f : option File)
| TypeRemoteId (id : string).

Definition last_of (v : View) (l : list View) : View := last l v.

(** The states rendered by a callback, the last one being the state it
    leaves. *)
Definition callback (v : View) (cb : Callback) : list View :=
  match cb with
  | Mounted =>
      [mkView Starting (connected v) (conn v) (file v) (remoteId v)
              true (sendProgress v) (recvProgress v)]
  | PeerOpen =>
      [mkView PeerReady (connected v) (conn v) (file v) (remoteId v)
              (peerRef v) (sendProgress v) (recvProgress v)]
  | Failed err =>
      [mkView (Error err) (connected v) (conn v) (file v) (remoteId v)
              (peerRef v) (sendProgress v) (recvProgress v)]
  | Wire c => renders v (wireConnection c)
  | Closed r => renders v (snd (onClose r))
  | Data r msg => renders v (snd (onData r msg))
  | Resumed chunk_size f c p r =>
      match sendFile chunk_size f c p r with
      | Some (_, _, es) => renders v es
      | None => []
      end
  | ClickConnect => [fst (connect v)]
  | ClickDisconnect => [fst (disconnect v)]
  | ChooseFile f =>
      [mkView (status v) (connected v) (conn v) f (remoteId v)
              (peerRef v) (sendProgress v) (recvProgress v)]
  | TypeRemoteId id =>
      [mkView (status v) (connected v) (conn v) (file v) id
              (peerRef v) (sendProgress v) (recvProgress v)]
  end.

(** All the states rendered by a sequence of callbacks. *)
Fixpoint session (v : View) (cbs : list Callback) : list View :=
  match cbs with
  | [] => []
  | cb :: rest =>
      callback v cb ++ session (last_of v (callback v cb)) rest
  end.

(** [connected] is set only with a connection in [conn]. *)
Definition consistent (v : View) : Prop :=
  connected v = true -> conn v <> None.

(** The state a sequence of callbacks leaves. *)
Definition after (v : View) (cbs : list Callback) : View :=
  fold_left (fun v cb => last_of v (callback v cb)) cbs v.

(** Setters that write neither [conn] nor [connected]. *)
Definition keeps (e : Effect) : Prop :=
  match e with
  | SetConn _ => False
  | SetConnected _ => False
  | _ => True
  end.

(** The state between two callbacks: [connected] tells whether [conn]
    holds a connection. *)
Definition settled (v : View) : Prop :=
  connected v = true <-> conn v <> None.

End UI.


(* ================================================================== *)
(** ** A later call of [sendFile] *)

(** [sendFile] called again on the same connection after it has returned:
    the pipeline starts over; the refs, which outlive the call, and the
    channel are as the earlier call left them. *)
Definition again (w : World) : World :=
  {| pipeline := Ready;
     sender_refs := sender_refs w;
     sender_log := sender_log w;
     sender_inbox := sender_inbox w;
     receiver_refs := receiver_refs w;
     receiver_log := receiver_log w;
     receiver_inbox := receiver_inbox w;
     to_receiver := to_receiver w;
     to_sender := to_sender w;
     open := open w |}.

(** What a clear flag lets through unacknowledged, and what a set flag
    accounts for. *)
Definition credit (r : Refs) : nat := if busyRef r then 0%nat else 1%nat.

Definition flag (r : Refs) : nat := if busyRef r then 1%nat else 0%nat.

(** The state of a later call, against the state [w0] it started in: what
    has been sent and acknowledged since. *)
Definition restarted (w0 w : World) : Prop :=
  acks_only (to_sender w) /\
  exists new_sent new_acks,
    sent w = sent w0 ++ new_sent /\
    sender_inbox w = sender_inbox w0 ++ new_acks /\
    acks_only new_acks /\
    (List.length new_acks + List.length (to_sender w)
       + List.length (acks_for (to_receiver w))
     <= List.length new_sent)%nat /\
    match pipeline w with
    | Ready => new_sent = [] /\ sender_refs w = sender_refs w0
    | _ => (List.length new_sent
            <= List.length new_acks + credit (sender_refs w0)
               + flag (sender_refs w))%nat
    end.


(** The same file sent again after [lockstep]: the descriptor has left and
    the pipeline waits. *)
Definition second_world : World :=
  Eval vm_compute in
    match run 2 three_bytes 7%nat (again done_world) [Resume; Resume] with
    | Some w => w
    | None => initial_world
    end.


(* ================================================================== *)
(** ** The receiver's states, as the specification names them

    The handler keeps no state of this name.  The specification has the
    receiver [Idle] until a descriptor arrives, [Receiving] from then on and
    [Idle] again after an end marker; a piece or an acknowledgement leaves
    the state as it is. *)

Module Spec.




End Spec.







(** The first transfer of the file of three bytes with both pieces
    acknowledged: the sender waits to send the end marker, the flag is
    clear. *)
Definition last_wait_world : World :=
  Eval vm_compute in
    match run 2 three_bytes 7%nat initial_world (firstn 12 lockstep) with
    | Some w => w
    | None => initial_world
    end.


(* ================================================================== *)
(** * Rounding: the facts the two computations rest on *)

Module JSFacts.
Import JS.
Local Open Scope Q_scope.

Lemma pow2_pos e : 0 < pow2 e.
Proof. unfold pow2. apply Qpower_0_lt. reflexivity. Qed.

Lemma pow2_add a b : pow2 (a + b) == pow2 a * pow2 b.
Proof. unfold pow2. apply Qpower_plus. discriminate. Qed.

Lemma pow2_le a b : (a <= b)%Z -> pow2 a <= pow2 b.
Proof. intros H. unfold pow2. apply Qpower_le_compat_l; [exact H | discriminate]. Qed.

Lemma pow2_Z e : (0 <= e)%Z -> pow2 e == inject_Z (2 ^ e).
Proof. intros H. unfold pow2. rewrite Zpower_Qpower by exact H. reflexivity. Qed.

Lemma Q_num_den x : x * inject_Z (Zpos (Qden x)) == inject_Z (Qnum x).
Proof.
  destruct x as [n d]. simpl. rewrite (Qmake_Qdiv n d). field.
  intros H. inversion H.
Qed.

Lemma ilog2_spec x : 0 < x -> pow2 (ilog2 x) <= x /\ x < pow2 (ilog2 x + 1).
Proof.
  intros Hx.
  assert (Hn : (0 < Qnum x)%Z).
  { destruct x as [n d]. unfold Qlt in Hx. simpl in *. lia. }
  assert (Hd : (0 < Zpos (Qden x))%Z) by reflexivity.
  destruct (Z.log2_spec _ Hn) as [Ln Un].
  destruct (Z.log2_spec _ Hd) as [Ld Ud].
  assert (Nn := Z.log2_nonneg (Qnum x)).
  assert (Nd := Z.log2_nonneg (Zpos (Qden x))).
  set (ln := Z.log2 (Qnum x)) in *.
  set (ld := Z.log2 (Zpos (Qden x))) in *.
  assert (E := Q_num_den x).
  assert (Ln' : pow2 ln <= inject_Z (Qnum x)).
  { rewrite pow2_Z by lia. rewrite <- Zle_Qle. exact Ln. }
  assert (Un' : inject_Z (Qnum x) < pow2 (ln + 1)).
  { rewrite pow2_Z by lia. rewrite <- Zlt_Qlt. replace (ln + 1)%Z with (Z.succ ln) by lia. exact Un. }
  assert (Ld' : pow2 ld <= inject_Z (Zpos (Qden x))).
  { rewrite pow2_Z by lia. rewrite <- Zle_Qle. exact Ld. }
  assert (Ud' : inject_Z (Zpos (Qden x)) < pow2 (ld + 1)).
  { rewrite pow2_Z by lia. rewrite <- Zlt_Qlt. replace (ld + 1)%Z with (Z.succ ld) by lia. exact Ud. }
  assert (Pd := pow2_pos ld).
  generalize dependent (inject_Z (Zpos (Qden x))). intros D E Ld' Ud'.
  generalize dependent (inject_Z (Qnum x)). intros Nm E Ln' Un'.
  assert (A1 : pow2 (ln + 1) == pow2 (ln - ld + 1) * pow2 ld).
  { rewrite <- pow2_add. replace (ln - ld + 1 + ld)%Z with (ln + 1)%Z by lia. reflexivity. }
  assert (A2 : pow2 ln == pow2 (ln - ld - 1) * pow2 (ld + 1)).
  { rewrite <- pow2_add. replace (ln - ld - 1 + (ld + 1))%Z with ln by lia. reflexivity. }
  assert (Pd1 := pow2_pos (ld + 1)).
  assert (Pk := pow2_pos (ln - ld + 1)).
  assert (Pk1 := pow2_pos (ln - ld - 1)).
  assert (Up : x < pow2 (ln - ld + 1)).
  { apply Qnot_le_lt. intros C.
    assert (pow2 (ln - ld + 1) * pow2 ld <= x * D).
    { apply Qle_trans with (x * pow2 ld).
      - apply Qmult_le_compat_r; lra.
      - apply Qmult_le_l; lra. }
    lra. }
  assert (Lo : pow2 (ln - ld - 1) <= x).
  { apply Qnot_lt_le. intros C.
    assert (x * D < pow2 (ln - ld - 1) * pow2 (ld + 1)).
    { apply Qle_lt_trans with (x * pow2 (ld + 1)).
      - apply Qmult_le_l; lra.
      - apply Qmult_lt_compat_r; lra. }
    lra. }
  unfold ilog2. fold ln ld.
  destruct (Qle_bool (pow2 (ln - ld)) x) eqn:B.
  - apply Qle_bool_iff in B. split; assumption.
  - assert (B' : x < pow2 (ln - ld)).
    { apply Qnot_le_lt. intros C. apply Qle_bool_iff in C. congruence. }
    split; [assumption|]. replace (ln - ld - 1 + 1)%Z with (ln - ld)%Z by lia. exact B'.
Qed.

Lemma ilog2_mono x y : 0 < x -> x <= y -> (ilog2 x <= ilog2 y)%Z.
Proof.
  intros Hx Hxy.
  assert (Hy : 0 < y) by lra.
  destruct (ilog2_spec Hx) as [Lx Ux]. destruct (ilog2_spec Hy) as [Ly Uy].
  destruct (Z_le_gt_dec (ilog2 x) (ilog2 y)) as [C | C]; [exact C | ].
  assert (pow2 (ilog2 y + 1) <= pow2 (ilog2 x)) by (apply pow2_le; lia). lra.
Qed.

(** *** Rounding to the nearest integer *)

Lemma rne_cases y :
  let f := Qfloor y in
  (y - inject_Z f < 1 # 2 /\ rne y = f) \/
  (y - inject_Z f == 1 # 2 /\ (rne y = f \/ rne y = (f + 1)%Z)) \/
  (1 # 2 < y - inject_Z f /\ rne y = (f + 1)%Z).
Proof.
  unfold rne. cbv zeta.
  destruct (Qcompare_spec (y - inject_Z (Qfloor y)) (1 # 2)) as [E | L | G].
  - right; left. split; [exact E |]. destruct (Z.even (Qfloor y)); auto.
  - left. auto.
  - right; right. auto.
Qed.

Lemma floor_bounds y : inject_Z (Qfloor y) <= y /\ y < inject_Z (Qfloor y) + 1.
Proof.
  split; [apply Qfloor_le |].
  assert (H := Qlt_floor y). rewrite inject_Z_plus in H. exact H.
Qed.

Lemma rne_error y : y - (1 # 2) <= inject_Z (rne y) /\ inject_Z (rne y) <= y + (1 # 2).
Proof.
  destruct (floor_bounds y) as [L U].
  destruct (rne_cases y) as [[C E] | [[C [E | E]] | [C E]]]; rewrite E;
    try (rewrite inject_Z_plus; change (inject_Z 1) with 1); split; lra.
Qed.

Lemma rne_ge_floor y : (Qfloor y <= rne y)%Z.
Proof.
  destruct (rne_cases y) as [[C E] | [[C [E | E]] | [C E]]]; rewrite E; lia.
Qed.

Lemma rne_lower y k : inject_Z k <= y -> (k <= rne y)%Z.
Proof.
  intros H. apply Qfloor_resp_le in H. rewrite Qfloor_Z in H.
  assert (G := rne_ge_floor y). lia.
Qed.

Lemma rne_upper y k : y <= inject_Z k -> (rne y <= k)%Z.
Proof.
  intros H. destruct (floor_bounds y) as [L U].
  assert (F : (Qfloor y <= k)%Z).
  { apply Qfloor_resp_le in H. rewrite Qfloor_Z in H. exact H. }
  destruct (rne_cases y) as [[C E] | [[C [E | E]] | [C E]]]; rewrite E; try lia.
  - destruct (Z.eq_dec (Qfloor y) k) as [K | K]; [| lia].
    rewrite K in C. lra.
  - destruct (Z.eq_dec (Qfloor y) k) as [K | K]; [| lia].
    rewrite K in C. lra.
Qed.

Lemma rne_Z k : rne (inject_Z k) = k.
Proof.
  apply Z.le_antisymm; [apply rne_upper | apply rne_lower]; lra.
Qed.

Lemma rne_mono y1 y2 : y1 <= y2 -> (rne y1 <= rne y2)%Z.
Proof.
  intros H.
  assert (F := Qfloor_resp_le _ _ H).
  destruct (Z.eq_dec (Qfloor y1) (Qfloor y2)) as [E | N].
  - unfold rne. cbv zeta. rewrite E.
    destruct (Qcompare_spec (y1 - inject_Z (Qfloor y2)) (1 # 2));
      destruct (Qcompare_spec (y2 - inject_Z (Qfloor y2)) (1 # 2));
      try destruct (Z.even (Qfloor y2)); try lia; lra.
  - assert (A := rne_ge_floor y2).
    assert (B : (rne y1 <= Qfloor y1 + 1)%Z).
    { destruct (rne_cases y1) as [[C E] | [[C [E | E]] | [C E]]]; rewrite E; lia. }
    lia.
Qed.

(** *** Rounding to 53 significant bits *)

Lemma fl_pos x : 0 < x -> fl x = inject_Z (rne (x / pow2 (expo x))) * pow2 (expo x).
Proof.
  intros H. unfold fl.
  destruct (Qle_bool x 0) eqn:B; [| reflexivity].
  apply Qle_bool_iff in B. lra.
Qed.

Lemma fl_nonpos x : x <= 0 -> fl x = 0.
Proof.
  intros H. unfold fl. apply Qle_bool_iff in H. rewrite H. reflexivity.
Qed.

Lemma scaled_bounds x :
  0 < x -> pow2 52 <= x / pow2 (expo x) /\ x / pow2 (expo x) < pow2 53.
Proof.
  intros H. destruct (ilog2_spec H) as [L U]. unfold expo.
  assert (P := pow2_pos (ilog2 x - 52)).
  assert (A : pow2 (ilog2 x) == pow2 52 * pow2 (ilog2 x - 52)).
  { rewrite <- pow2_add. replace (52 + (ilog2 x - 52))%Z with (ilog2 x) by lia. reflexivity. }
  assert (B : pow2 (ilog2 x + 1) == pow2 53 * pow2 (ilog2 x - 52)).
  { rewrite <- pow2_add. replace (53 + (ilog2 x - 52))%Z with (ilog2 x + 1)%Z by lia. reflexivity. }
  split.
  - apply Qle_shift_div_l; [exact P | lra].
  - apply Qlt_shift_div_r; [exact P | lra].
Qed.

Lemma mantissa_bounds x :
  0 < x -> (2 ^ 52 <= rne (x / pow2 (expo x)) <= 2 ^ 53)%Z.
Proof.
  intros H. destruct (scaled_bounds H) as [L U]. split.
  - apply rne_lower. rewrite <- pow2_Z by lia. exact L.
  - apply rne_upper. rewrite <- pow2_Z by lia. lra.
Qed.

Lemma fl_nonneg x : 0 <= fl x.
Proof.
  destruct (Qlt_le_dec 0 x) as [H | H].
  - rewrite (fl_pos H). assert (M := mantissa_bounds H).
    assert (P := pow2_pos (expo x)).
    apply Qmult_le_0_compat; [| lra].
    change 0 with (inject_Z 0). rewrite <- Zle_Qle. lia.
  - rewrite (fl_nonpos H). lra.
Qed.

Lemma fl_mono x y : x <= y -> fl x <= fl y.
Proof.
  intros H. destruct (Qlt_le_dec 0 x) as [Hx | Hx].
  2:{ rewrite (fl_nonpos Hx). apply fl_nonneg. }
  assert (Hy : 0 < y) by lra.
  rewrite (fl_pos Hx), (fl_pos Hy).
  assert (E := ilog2_mono Hx H).
  assert (Px := pow2_pos (expo x)). assert (Py := pow2_pos (expo y)).
  destruct (Z.eq_dec (ilog2 x) (ilog2 y)) as [Q | Q].
  - unfold expo. rewrite Q. fold (expo y).
    apply Qmult_le_compat_r; [| lra].
    rewrite <- Zle_Qle. apply rne_mono.
    apply Qmult_le_compat_r; [exact H |]. apply Qinv_le_0_compat. lra.
  - destruct (mantissa_bounds Hx) as [_ Ux]. destruct (mantissa_bounds Hy) as [Ly _].
    apply Qle_trans with (pow2 53 * pow2 (expo x)).
    + apply Qmult_le_compat_r; [| lra].
      rewrite (@pow2_Z 53) by lia. rewrite <- Zle_Qle. exact Ux.
    + apply Qle_trans with (pow2 52 * pow2 (expo y)).
      * rewrite <- !pow2_add. apply pow2_le. unfold expo. lia.
      * apply Qmult_le_compat_r; [| lra].
        rewrite (@pow2_Z 52) by lia. rewrite <- Zle_Qle. exact Ly.
Qed.

Lemma rne_compat y1 y2 : y1 == y2 -> rne y1 = rne y2.
Proof.
  intros H. apply Z.le_antisymm; apply rne_mono; lra.
Qed.

(** The result is within half a unit of the last place, below. *)
Lemma fl_lower x : 0 < x -> x - x * pow2 (-53) <= fl x.
Proof.
  intros H. rewrite (fl_pos H).
  destruct (scaled_bounds H) as [L _].
  destruct (rne_error (x / pow2 (expo x))) as [R _].
  assert (P := pow2_pos (expo x)).
  assert (S : x == x / pow2 (expo x) * pow2 (expo x)) by (field; lra).
  assert (T : pow2 52 * pow2 (-53) == 1 # 2).
  { rewrite <- pow2_add. reflexivity. }
  assert (P53 := pow2_pos (-53)).
  set (s := x / pow2 (expo x)) in *.
  set (p := pow2 (expo x)) in *.
  apply Qle_trans with ((s - (1 # 2)) * p).
  - rewrite S at 1 2.
    assert (p * (1 # 2) <= s * p * pow2 (-53)).
    { setoid_replace (s * p * pow2 (-53)) with (p * (s * pow2 (-53))) by ring.
      apply Qmult_le_l; [exact P |].
      rewrite <- T. apply Qmult_le_compat_r; lra. }
    lra.
  - apply Qmult_le_compat_r; lra.
Qed.

(** Integers below 2^53 are represented exactly. *)
Lemma fl_exact k : (0 <= k < 2 ^ 53)%Z -> fl (inject_Z k) == inject_Z k.
Proof.
  intros [K0 K1].
  destruct (Z.eq_dec k 0) as [-> | N]; [reflexivity |].
  assert (H : 0 < inject_Z k).
  { change 0 with (inject_Z 0). rewrite <- Zlt_Qlt. lia. }
  rewrite (fl_pos H).
  destruct (ilog2_spec H) as [L _].
  assert (U : inject_Z k < pow2 53).
  { rewrite (@pow2_Z 53) by lia. rewrite <- Zlt_Qlt. exact K1. }
  assert (E : (expo (inject_Z k) <= 0)%Z).
  { unfold expo. destruct (Z_le_gt_dec (ilog2 (inject_Z k)) 52) as [C | C]; [lia |].
    assert (pow2 53 <= pow2 (ilog2 (inject_Z k))) by (apply pow2_le; lia). lra. }
  set (e := expo (inject_Z k)) in *.
  assert (P := pow2_pos e).
  assert (I : inject_Z k / pow2 e == inject_Z (k * 2 ^ (- e))).
  { rewrite inject_Z_mult, <- pow2_Z by lia.
    assert (A := pow2_add e (- e)). replace (e + - e)%Z with 0%Z in A by lia.
    change (pow2 0) with 1 in A. assert (P' := pow2_pos (- e)).
    apply Qmult_inj_r with (pow2 e); [lra |].
    transitivity (inject_Z k); [field; lra |].
    transitivity (inject_Z k * (pow2 e * pow2 (- e))); [rewrite <- A; ring | ring]. }
  rewrite (rne_compat I), rne_Z, <- I. field. lra.
Qed.

(** *** The two computations of the program *)

Lemma Qceiling_unique z n :
  inject_Z (n - 1) < z -> z <= inject_Z n -> Qceiling z = n.
Proof.
  intros L U.
  assert (A := Qceiling_resp_le _ _ U). rewrite Qceiling_Z in A.
  assert (B := Qle_ceiling z).
  assert (C : inject_Z (n - 1) < inject_Z (Qceiling z)) by lra.
  rewrite <- Zlt_Qlt in C. lia.
Qed.

Lemma NtoQ_pos b : (0 < b)%N -> 0 < NtoQ b.
Proof.
  intros H. unfold NtoQ. change 0 with (inject_Z 0). rewrite <- Zlt_Qlt. lia.
Qed.

Lemma NtoQ_le a b : (a <= b)%N -> NtoQ a <= NtoQ b.
Proof.
  intros H. unfold NtoQ. rewrite <- Zle_Qle. lia.
Qed.

Lemma div_mono a a' b : (0 < b)%N -> (a <= a')%N -> div a b <= div a' b.
Proof.
  intros Hb H. unfold div. apply fl_mono.
  apply Qmult_le_compat_r; [apply NtoQ_le; exact H |].
  apply Qinv_le_0_compat. apply Qlt_le_weak, NtoQ_pos, Hb.
Qed.

Lemma mul100_mono x y : x <= y -> mul100 x <= mul100 y.
Proof.
  intros H. unfold mul100. apply fl_mono. lra.
Qed.

(** For byte counts, [Math.ceil(a / b)] is the ceiling of the quotient. *)
Lemma ceil_div_exact a b :
  (0 < b)%N -> (a < 2 ^ 53)%N ->
  ceil_div a b = Int (Z.of_N (ceiling_quotient a b)).
Proof.
  intros Hb Ha. unfold ceil_div.
  destruct (N.eqb_spec b 0) as [-> | _]; [lia |]. f_equal.
  set (n := Z.of_N (ceiling_quotient a b)).
  assert (Hn : (((n - 1) * Z.of_N b < Z.of_N a \/ (a = 0%N /\ n = 0)) /\
               (Z.of_N a <= n * Z.of_N b) /\ (0 <= n <= Z.of_N a))%Z).
  { unfold n, ceiling_quotient.
    rewrite N2Z.inj_div, N2Z.inj_sub, N2Z.inj_add by lia.
    change (Z.of_N 1) with 1%Z.
    assert (D := Z.div_mod (Z.of_N a + Z.of_N b - 1) (Z.of_N b)).
    assert (M := Z.mod_pos_bound (Z.of_N a + Z.of_N b - 1) (Z.of_N b)).
    destruct (N.eq_dec a 0) as [-> | A0].
    - replace (Z.of_N 0 + Z.of_N b - 1)%Z with (Z.of_N b - 1)%Z by lia.
      rewrite Z.div_small by lia. lia.
    - assert (Q1 : (1 <= (Z.of_N a + Z.of_N b - 1) / Z.of_N b)%Z).
      { apply Z.div_le_lower_bound; lia. }
      assert (Q2 : ((Z.of_N a + Z.of_N b - 1) / Z.of_N b <= Z.of_N a)%Z).
      { apply Z.div_le_upper_bound; nia. }
      nia. }
  destruct Hn as (Lo & Up & N0 & Na).
  assert (PB := NtoQ_pos Hb).
  assert (QB : NtoQ a / NtoQ b * NtoQ b == NtoQ a) by (field; lra).
  apply Qceiling_unique.
  - destruct (N.eq_dec a 0) as [Z0 | Z0].
    { assert (n = 0%Z) as -> by lia. subst a.
      unfold div. rewrite fl_nonpos; [reflexivity |].
      change (NtoQ 0) with 0. unfold Qdiv. rewrite Qmult_0_l. lra. }
    assert (Lo' : ((n - 1) * Z.of_N b < Z.of_N a)%Z) by lia.
    assert (A0 : (0 < a)%N) by lia.
    assert (PA := NtoQ_pos A0).
    assert (Hq : 0 < NtoQ a / NtoQ b).
    { apply Qlt_shift_div_l; lra. }
    apply Qlt_le_trans with (2 := fl_lower Hq).
    set (q := NtoQ a / NtoQ b) in *.
    (* q - q * 2^-53 > n - 1, after multiplying by b *)
    assert (L1 : inject_Z (n - 1) * NtoQ b + 1 <= NtoQ a).
    { unfold NtoQ. rewrite <- inject_Z_mult. change 1 with (inject_Z 1).
      rewrite <- inject_Z_plus, <- Zle_Qle. lia. }
    assert (L2 : NtoQ a * pow2 (-53) < 1).
    { assert (NtoQ a < pow2 53).
      { rewrite (@pow2_Z 53) by lia. unfold NtoQ. rewrite <- Zlt_Qlt.
        change (2 ^ 53)%Z with (Z.of_N (2 ^ 53)). lia. }
      assert (T : pow2 53 * pow2 (-53) == 1) by (rewrite <- pow2_add; reflexivity).
      assert (P := pow2_pos (-53)).
      rewrite <- T. apply Qmult_lt_compat_r; lra. }
    apply Qnot_le_lt. intros C.
    assert (C' : (q - q * pow2 (-53)) * NtoQ b <= inject_Z (n - 1) * NtoQ b).
    { apply Qmult_le_compat_r; lra. }
    assert (X : (q - q * pow2 (-53)) * NtoQ b == NtoQ a - NtoQ a * pow2 (-53)).
    { rewrite <- QB. ring. }
    lra.
  - apply Qle_trans with (fl (inject_Z n)).
    + unfold div. apply fl_mono. apply Qle_shift_div_r; [exact PB |].
      unfold NtoQ. rewrite <- inject_Z_mult, <- Zle_Qle. exact Up.
    + rewrite fl_exact; [lra |].
      change (2 ^ 53)%Z with (Z.of_N (2 ^ 53)). lia.
Qed.

Lemma percent_Int a b :
  (0 < b)%N -> percent a b = Int (Z.min 100 (Qfloor (mul100 (div a b)))).
Proof.
  intros H. unfold percent. destruct (N.eqb_spec b 0); [lia | reflexivity].
Qed.

Lemma percent_range a b :
  (0 < b)%N -> exists z, percent a b = Int z /\ (0 <= z <= 100)%Z.
Proof.
  intros H. rewrite (percent_Int a H). eexists. split; [reflexivity |].
  assert (F : (0 <= Qfloor (mul100 (div a b)))%Z).
  { rewrite <- (Qfloor_Z 0). apply Qfloor_resp_le. apply fl_nonneg. }
  lia.
Qed.

Lemma percent_mono a a' b :
  (0 < b)%N -> (a <= a')%N ->
  exists z z', percent a b = Int z /\ percent a' b = Int z' /\ (z <= z')%Z.
Proof.
  intros Hb H. rewrite (percent_Int a Hb), (percent_Int a' Hb).
  do 2 eexists. split; [reflexivity |]. split; [reflexivity |].
  apply Z.min_le_compat_l. apply Qfloor_resp_le, mul100_mono, div_mono; assumption.
Qed.
End JSFacts.


(* ================================================================== *)
(** * Views of a log *)

Lemma sends_app a b : sends (a ++ b) = sends a ++ sends b.
Proof. unfold sends. apply flat_map_app. Qed.

Lemma send_progress_app a b :
  send_progress (a ++ b) = send_progress a ++ send_progress b.
Proof. unfold send_progress. apply flat_map_app. Qed.

Lemma recv_progress_app a b :
  recv_progress (a ++ b) = recv_progress a ++ recv_progress b.
Proof. unfold recv_progress. apply flat_map_app. Qed.

Lemma downloads_app a b : downloads (a ++ b) = downloads a ++ downloads b.
Proof. unfold downloads. apply flat_map_app. Qed.

Lemma pieces_app a b : pieces (a ++ b) = pieces a ++ pieces b.
Proof. unfold pieces. apply flat_map_app. Qed.

(** Whatever a peer is sent, it answers with acknowledgements only. *)
Lemma onData_sends_acks r msg : acks_only (sends (snd (onData r msg))).
Proof.
  unfold acks_only.
  destruct msg as [m | i p | | i]; simpl.
  - repeat constructor.
  - destruct (metaRef r); simpl; repeat constructor.
  - destruct (metaRef r); simpl; constructor.
  - constructor.
Qed.

Lemma onData_ack r msg : is_ack msg = true -> snd (onData r msg) = [].
Proof. destruct msg; simpl; intros H; try discriminate; reflexivity. Qed.

Lemma handle_all_snoc msgs : forall r msg,
  handle_all r (msgs ++ [msg]) =
    (fst (onData (fst (handle_all r msgs)) msg),
     snd (handle_all r msgs) ++ snd (onData (fst (handle_all r msgs)) msg)).
Proof.
  induction msgs as [| m msgs IH]; intros r msg; simpl.
  - destruct (onData r msg) as [r1 es1]. simpl. rewrite app_nil_r. reflexivity.
  - destruct (onData r m) as [r1 es1]. rewrite IH.
    destruct (handle_all r1 msgs) as [r2 es2]. simpl.
    rewrite app_assoc. reflexivity.
Qed.

Lemma acks_only_app a b : acks_only a -> acks_only b -> acks_only (a ++ b).
Proof. intros A B. apply Forall_app. split; assumption. Qed.


(* ================================================================== *)
(** * The message handler *)

Section Handler.

Variable r : Refs.

(** C9.  An acknowledgement clears [busyRef] whatever its index is: the
    handler treats all indices alike, leaves the other refs alone, makes no
    call, and a pipeline suspended in [waitForAck] then goes on, for any
    pending message. *)
Theorem C9_any_ack_clears_busy (i : Z) :
  busyRef (fst (onData r (ack i))) = false /\
  (forall j, onData r (ack j) = onData r (ack i)) /\
  onData r (ack i) = (set_busy false r, []) /\
  (forall chunk_size file conn offset index pending,
      sendFile chunk_size file conn (WaitForAck offset index pending)
               (fst (onData r (ack i))) <> None).
Proof.
  repeat split.
  intros chunk_size file conn offset index pending.
  simpl. destruct pending; discriminate.
Qed.

(** C10.  With a descriptor stored, the end marker releases the
    concatenation of whatever buffers are stored, under the stored name and
    type: neither [expectedChunks] nor [receivedBytes] nor the declared
    size takes part, and no handler ever reads [expectedChunks]. *)
Theorem C10_eof_never_checks_count (m : Meta) :
  metaRef r = Some m ->
  onData r eof =
    (r, [Download (name m) (mime m) (List.concat (receiveBuffers r));
         SetStatus Received_file; SetRecvProgress (JS.Int 100)]) /\
  (forall e msg,
      let r' := {| receiveBuffers := receiveBuffers r;
                   expectedChunks := e;
                   receivedBytes := receivedBytes r;
                   metaRef := metaRef r;
                   busyRef := busyRef r |} in
      snd (onData r' msg) = snd (onData r msg) /\
      receiveBuffers (fst (onData r' msg)) = receiveBuffers (fst (onData r msg)) /\
      receivedBytes (fst (onData r' msg)) = receivedBytes (fst (onData r msg)) /\
      metaRef (fst (onData r' msg)) = metaRef (fst (onData r msg)) /\
      busyRef (fst (onData r' msg)) = busyRef (fst (onData r msg))).
Proof.
  intros H. split.
  - simpl. rewrite H. reflexivity.
  - intros e msg. destruct msg; simpl; try (repeat split; reflexivity).
    destruct (metaRef r) eqn:E; simpl; rewrite ?E; repeat split; reflexivity.
Qed.

(** C5.  A descriptor resets the transfer state whatever the refs hold:
    the expected count is the ceiling of size by piece size, the buffers
    are empty, the byte count is zero, and the one call to [send] carries
    the acknowledgement of index -1. *)
Theorem C5_descriptor_resets (m : Meta) :
  0 < chunkSize m ->
  size m < 2 ^ 53 ->
  onData r (meta m) =
    ({| receiveBuffers := [];
        expectedChunks := JS.Int (Z.of_N (ceiling_quotient (size m) (chunkSize m)));
        receivedBytes := 0;
        metaRef := Some m;
        busyRef := busyRef r |},
     [SetRecvProgress (JS.Int 0); Send (ack (-1))]) /\
  sends (snd (onData r (meta m))) = [ack (-1)].
Proof.
  intros Hc Hs. simpl.
  rewrite (JSFacts.ceil_div_exact Hc Hs). split; reflexivity.
Qed.

End Handler.

(** One piece of five is stored, and the end marker releases it. *)
Lemma C10_witness :
  metaRef refs_missing_pieces = Some (mkMeta "abc.txt" 10 "text/plain" 2) /\
  expectedChunks refs_missing_pieces = JS.Int 5 /\
  onData refs_missing_pieces eof =
    (refs_missing_pieces,
     [Download "abc.txt" "text/plain" [x61%byte];
      SetStatus Received_file; SetRecvProgress (JS.Int 100)]).
Proof.
  split; [reflexivity |]. split; [reflexivity |].
  exact (proj1 (@C10_eof_never_checks_count refs_missing_pieces
                  (mkMeta "abc.txt" 10 "text/plain" 2) eq_refl)).
Defined.

(** A descriptor of 16385 bytes in pieces of 16384 arrives in the middle of
    another transfer: two pieces are expected, nothing is kept. *)
Lemma C5_witness :
  0 < chunkSize big_descriptor /\
  size big_descriptor < 2 ^ 53 /\
  onData refs_missing_pieces (meta big_descriptor) =
    ({| receiveBuffers := [];
        expectedChunks := JS.Int 2;
        receivedBytes := 0;
        metaRef := Some big_descriptor;
        busyRef := false |},
     [SetRecvProgress (JS.Int 0); Send (ack (-1))]).
Proof.
  split; [reflexivity |]. split; [reflexivity |].
  exact (proj1 (@C5_descriptor_resets refs_missing_pieces
                  big_descriptor eq_refl eq_refl)).
Defined.

(* ================================================================== *)
(** * The receiver when no transfer is active *)













(* ================================================================== *)
(** * Runs of the two peers *)

Section Runs.

Variable chunk_size : N.
Variable file : File.
Variable conn : DataConnection.

Local Abbreviation step := (step chunk_size file conn).
Local Abbreviation steps := (steps chunk_size file conn).
Local Abbreviation reachable := (reachable chunk_size file conn).
Local Abbreviation run := (run chunk_size file conn).
Local Abbreviation fire := (fire chunk_size file conn).

Lemma run_steps es : forall w w', run w es = Some w' -> steps w w'.
Proof.
  induction es as [| e es IH]; intros w w' H; simpl in H.
  - injection H as <-. constructor.
  - destruct (fire w e) as [w1 |] eqn:F; [| discriminate].
    specialize (IH _ _ H). clear H.
    induction IH as [| w2 w3 _ IH2 S].
    + apply steps_step with w; [constructor | exists e; exact F].
    + apply steps_step with w2; assumption.
Qed.

Lemma reachable_steps w w' : reachable w -> steps w w' -> reachable w'.
Proof.
  intros R S. induction S as [| w1 w2 _ IH St]; [exact R |].
  apply reachable_step with w1; assumption.
Qed.

Lemma reachable_run es w w' : reachable w -> run w es = Some w' -> reachable w'.
Proof.
  intros R H. apply reachable_steps with w; [exact R |].
  apply run_steps with es. exact H.
Qed.

(** The first two messages leave before anything can come back. *)
Lemma two_sends_at_once :
  exists w second,
    run initial_world [Resume; Resume; Resume] = Some w /\
    sent w = [meta (descriptor chunk_size file); second] /\
    second = (if 0 <? file_size file
              then chunk 0 (slice file 0 chunk_size) else eof) /\
    sender_inbox w = [] /\ receiver_inbox w = [] /\
    pipeline w = (if 0 <? file_size file
                  then LoopTest chunk_size 1 else Returned).
Proof.
  simpl.
  destruct (0 <? file_size file); simpl; do 2 eexists; repeat split.
Qed.

(** C1, on the code.  For every file there is a reachable state with two
    messages sent and none acknowledged. *)
Theorem C1_two_unacknowledged :
  exists w, reachable w /\ outstanding w = 2%Z /\ acknowledged w = [].
Proof.
  destruct two_sends_at_once as (w & second & R & S & _ & I & _).
  exists w. split; [exact (@reachable_run _ _ _ (reachable_initial chunk_size file conn) R) |].
  unfold outstanding, acknowledged. rewrite S, I. split; reflexivity.
Qed.

(** C2, on the code.  For every non-empty file there is a reachable state
    in which piece 0 has been sent while nothing at all has been delivered
    to either peer: the descriptor is still in the channel. *)
Theorem C2_piece_0_before_ready :
  0 < file_size file ->
  exists w,
    reachable w /\
    sent w = [meta (descriptor chunk_size file); chunk 0 (slice file 0 chunk_size)] /\
    sender_inbox w = [] /\ receiver_inbox w = [].
Proof.
  intros H. destruct two_sends_at_once as (w & second & R & S & E & I & J & _).
  exists w. split; [exact (@reachable_run _ _ _ (reachable_initial chunk_size file conn) R) |].
  apply N.ltb_lt in H. rewrite H in E. subst second. auto.
Qed.

End Runs.


(* ================================================================== *)
(** * What is sent: the pieces of the file *)

Lemma firstn_plus (A : Type) (a b : nat) : forall l : list A,
  firstn a l ++ firstn b (skipn a l) = firstn (a + b) l.
Proof.
  induction a as [| a IH]; intros l; simpl; [reflexivity |].
  destruct l as [| x l]; simpl.
  - rewrite firstn_nil. reflexivity.
  - rewrite IH. reflexivity.
Qed.

Section Pieces.

Variable chunk_size : N.
Variable file : File.

Local Abbreviation first_pieces' := (first_pieces chunk_size file).

Lemma first_pieces_snoc k :
  first_pieces' (S k) = first_pieces' k ++ [piece chunk_size file (N.of_nat k)].
Proof. unfold first_pieces. rewrite seq_S, map_app. reflexivity. Qed.

Lemma first_pieces_chunks k : Forall (fun m => is_chunk m = true) (first_pieces' k).
Proof.
  unfold first_pieces. apply Forall_forall. intros m H.
  apply in_map_iff in H. destruct H as (i & <- & _). reflexivity.
Qed.

Lemma length_first_pieces k : List.length (pieces (first_pieces' k)) = k.
Proof.
  induction k as [| k IH]; [reflexivity |].
  rewrite first_pieces_snoc, pieces_app, length_app, IH. simpl. lia.
Qed.

Lemma nth_first_pieces k i :
  (i < k)%nat ->
  nth i (pieces (first_pieces' k)) [] =
    slice file (N.of_nat i * chunk_size) (N.of_nat i * chunk_size + chunk_size).
Proof.
  induction k as [| k IH]; intros H; [lia |].
  rewrite first_pieces_snoc, pieces_app.
  destruct (Nat.eq_dec i k) as [-> | N].
  - rewrite app_nth2; rewrite length_first_pieces; [| lia].
    rewrite Nat.sub_diag. reflexivity.
  - rewrite app_nth1; [apply IH; lia |]. rewrite length_first_pieces. lia.
Qed.

(** The pieces sent so far are the file up to the current offset. *)
Lemma concat_first_pieces k :
  List.concat (pieces (first_pieces' k)) =
    firstn (N.to_nat (N.of_nat k * chunk_size)) (file_bytes file).
Proof.
  induction k as [| k IH]; [reflexivity |].
  replace (N.of_nat (S k) * chunk_size)
    with (N.of_nat k * chunk_size + chunk_size) by lia.
  rewrite first_pieces_snoc, pieces_app, concat_app, IH.
  cbn [pieces piece flat_map List.concat app].
  rewrite app_nil_r. unfold slice.
  replace (N.to_nat (N.of_nat k * chunk_size + chunk_size - N.of_nat k * chunk_size))
    with (N.to_nat chunk_size) by lia.
  rewrite firstn_plus. f_equal. lia.
Qed.

Lemma slice_full a :
  a + chunk_size <= file_size file ->
  byteLength (slice file a (a + chunk_size)) = chunk_size.
Proof.
  unfold file_size, byteLength, slice. intros H.
  rewrite length_firstn, length_skipn. lia.
Qed.

(** The index at which the loop of [sendFile] leaves. *)
Lemma exit_index index :
  0 < chunk_size ->
  file_size file <= index * chunk_size ->
  index = 0 \/ (index - 1) * chunk_size < file_size file ->
  index = ceiling_quotient (file_size file) chunk_size.
Proof.
  intros P U L. unfold ceiling_quotient.
  assert (B : index * chunk_size <= file_size file + chunk_size - 1).
  { destruct L as [-> | L]; [lia |].
    destruct (N.eq_dec index 0) as [-> | Z]; [lia |].
    replace index with (index - 1 + 1) by lia.
    rewrite N.mul_add_distr_r. lia. }
  apply N.div_unique with (file_size file + chunk_size - 1 - index * chunk_size); lia.
Qed.

(** A prefix of what the sender has sent. *)
Lemma prefix_of_pieces k : forall l rest,
  l ++ rest = first_pieces' k -> exists j, (j <= k)%nat /\ l = first_pieces' j.
Proof.
  induction k as [| k IH]; intros l rest H.
  - exists 0%nat. apply app_eq_nil in H. split; [lia | apply H].
  - rewrite first_pieces_snoc in H.
    destruct rest as [| y rest' _] using rev_ind.
    { rewrite app_nil_r in H. exists (S k).
      rewrite first_pieces_snoc. split; [lia | exact H]. }
    rewrite app_assoc in H. apply app_inj_tail in H.
    destruct H as [H _]. destruct (IH _ _ H) as (j & J & E).
    exists j. split; [lia | exact E].
Qed.

Lemma prefix_of_wire d k tail l rest :
  l ++ rest = meta d :: first_pieces' k ++ tail ->
  tail = [] \/ tail = [eof] ->
  l = [] \/
  (exists j, (j <= k)%nat /\ l = meta d :: first_pieces' j) \/
  (tail = [eof] /\ l = meta d :: first_pieces' k ++ [eof]).
Proof.
  intros H T. destruct l as [| m l]; [left; reflexivity | right].
  simpl in H. injection H as -> H.
  destruct T as [-> | ->].
  - rewrite app_nil_r in H. left.
    destruct (prefix_of_pieces _ _ _ H) as (j & J & ->). exists j. auto.
  - destruct rest as [| y rest' _] using rev_ind.
    { rewrite app_nil_r in H. right. subst l. auto. }
    rewrite app_assoc in H. apply app_inj_tail in H.
    destruct H as [H _]. left.
    destruct (prefix_of_pieces _ _ _ H) as (j & J & ->). exists j. auto.
Qed.

End Pieces.


(* ================================================================== *)
(** * The invariant of a transfer *)

Section Invariant.

Variable chunk_size : N.
Variable file : File.
Variable conn : DataConnection.

Local Abbreviation step := (step chunk_size file conn).
Local Abbreviation steps := (steps chunk_size file conn).
Local Abbreviation reachable := (reachable chunk_size file conn).
Local Abbreviation fire := (fire chunk_size file conn).
Local Abbreviation at_index' := (at_index chunk_size file).
Local Abbreviation first_pieces' := (first_pieces chunk_size file).
Local Abbreviation sender_invariant' := (sender_invariant chunk_size file).
Local Abbreviation invariant' := (invariant chunk_size file).

Lemma at_index_next index msgs reports :
  at_index' index msgs reports ->
  index * chunk_size < file_size file ->
  at_index' (index + 1)
    (msgs ++ [chunk (Z.of_N index)
                (slice file (index * chunk_size) (index * chunk_size + chunk_size))])
    (reports ++ [JS.percent (index * chunk_size + chunk_size) (file_size file)]).
Proof.
  intros (M & R & B) L. unfold at_index.
  replace (N.to_nat (index + 1)) with (S (N.to_nat index)) by lia.
  rewrite first_pieces_snoc, seq_S, map_app, M, R. simpl.
  unfold piece, report. rewrite N2Nat.id.
  replace (N.of_nat (S (N.to_nat index)) * chunk_size)
    with (index * chunk_size + chunk_size) by lia.
  repeat split. right. replace (index + 1 - 1) with index by lia. exact L.
Qed.

(** Events other than a resumption leave the sender's side as it is. *)
Lemma sender_side_kept w w' e :
  e <> Resume ->
  acks_only (to_sender w) ->
  fire w e = Some w' ->
  pipeline w' = pipeline w /\ sent w' = sent w /\
  send_progress (sender_log w') = send_progress (sender_log w).
Proof.
  intros NE A F. destruct e; [congruence | | |]; simpl in F.
  - destruct (open w); [| discriminate].
    destruct (to_receiver w) as [| msg q]; [discriminate |].
    destruct (onData (receiver_refs w) msg). injection F as <-. auto.
  - destruct (open w); [| discriminate].
    destruct (to_sender w) as [| msg q] eqn:Q; [discriminate |].
    inversion A as [| ? ? Hm _]; subst.
    assert (E := onData_ack (sender_refs w) _ Hm).
    destruct (onData (sender_refs w) msg) as [r es]. simpl in E. subst es.
    injection F as <-. unfold sent. simpl. rewrite app_nil_r. auto.
  - destruct (open w); [| discriminate]. injection F as <-.
    unfold sent. simpl. rewrite sends_app, send_progress_app. simpl.
    rewrite !app_nil_r. auto.
Qed.

Lemma sender_invariant_step w w' :
  sender_invariant' w -> acks_only (to_sender w) -> step w w' ->
  sender_invariant' w'.
Proof.
  intros I A [e F].
  destruct (match e with Resume => true | _ => false end) eqn:K.
  2:{ assert (NE : e <> Resume) by (intros ->; discriminate).
      destruct (@sender_side_kept w w' e NE A F) as (P & S & R).
      unfold sender_invariant in *. rewrite P, S, R. exact I. }
  destruct e; try discriminate. clear K. simpl in F.
  unfold sender_invariant in *.
  destruct (pipeline w) as [| offset index | offset index [buf |] |] eqn:P;
    simpl in F.
  - injection F as <-. destruct I as [S R]. unfold sent in *. simpl.
    rewrite sends_app, send_progress_app, S, R. simpl.
    split; [reflexivity |]. repeat split. left. reflexivity.
  - destruct I as [O I].
    destruct (offset <? file_size file) eqn:L; injection F as <-;
      unfold sent in *; simpl; rewrite app_nil_r.
    + apply N.ltb_lt in L. auto.
    + apply N.ltb_ge in L. auto.
  - destruct (busyRef (sender_refs w)); [discriminate |]. injection F as <-.
    destruct I as (O & I & L & B). subst offset buf.
    unfold sent in *. simpl. rewrite sends_app, send_progress_app. simpl.
    split; [lia |]. apply at_index_next; assumption.
  - destruct (busyRef (sender_refs w)); [discriminate |]. injection F as <-.
    destruct I as (O & I & L). subst offset.
    unfold sent in *. simpl. rewrite sends_app, send_progress_app. simpl.
    exists index, (sends (sender_log w)), (send_progress (sender_log w)).
    auto.
  - discriminate.
Qed.

Lemma channel_invariant_step w w' :
  channel_invariant w -> step w w' -> channel_invariant w'.
Proof.
  intros (A & B & (dropped & S & D) & R & L) [e F].
  unfold channel_invariant. destruct e; simpl in F.
  - destruct (sendFile chunk_size file conn (pipeline w) (sender_refs w))
      as [[[p r] es] |]; [| discriminate].
    injection F as <-. unfold sent in *. simpl.
    repeat split; try assumption.
    rewrite sends_app, S. unfold transmit.
    destruct (open w).
    + exists []. rewrite (D eq_refl), !app_nil_r, app_assoc. auto.
    + exists (dropped ++ sends es). rewrite !app_assoc. split; [reflexivity |].
      discriminate.
  - destruct (open w) eqn:O; [| discriminate].
    destruct (to_receiver w) as [| msg q] eqn:Q; [discriminate |].
    destruct (onData (receiver_refs w) msg) as [r es] eqn:H.
    injection F as <-. unfold sent in *. simpl.
    rewrite handle_all_snoc, <- R, H. simpl.
    repeat split; try assumption.
    + apply acks_only_app; [exact A |].
      assert (X := onData_sends_acks (receiver_refs w) msg).
      rewrite H in X. exact X.
    + exists dropped. rewrite S, <- app_assoc. auto.
    + rewrite L, !app_nil_r. reflexivity.
  - destruct (open w) eqn:O; [| discriminate].
    destruct (to_sender w) as [| msg q] eqn:Q; [discriminate |].
    inversion A as [| ? ? Hm Hq]; subst.
    assert (E := onData_ack (sender_refs w) _ Hm).
    destruct (onData (sender_refs w) msg) as [r es]. simpl in E. subst es.
    injection F as <-. unfold sent in *. simpl. rewrite !app_nil_r.
    repeat split; try assumption.
    + apply acks_only_app; [exact B | repeat constructor; exact Hm].
    + exists dropped. auto.
    + rewrite L, app_nil_r. reflexivity.
  - destruct (open w) eqn:O; [| discriminate]. injection F as <-.
    unfold sent in *. simpl. rewrite sends_app. simpl. rewrite app_nil_r.
    repeat split; try assumption.
    + exists dropped. split; [exact S | discriminate].
    + rewrite L, app_nil_r. reflexivity.
Qed.

Lemma invariant_initial : invariant' initial_world.
Proof.
  repeat split; try constructor.
  exists []. auto.
Qed.

Lemma invariant_step w w' : invariant' w -> step w w' -> invariant' w'.
Proof.
  intros [S C] St. split.
  - apply sender_invariant_step with w; [exact S | apply C | exact St].
  - apply channel_invariant_step with w; assumption.
Qed.

Lemma reachable_invariant w : reachable w -> invariant' w.
Proof.
  induction 1 as [| w w' _ IH St]; [apply invariant_initial |].
  apply invariant_step with w; assumption.
Qed.

End Invariant.


(* ================================================================== *)
(** * Reports of progress *)

Lemma percentage_ge_0 p : is_percentage p -> num_le (JS.Int 0) p.
Proof. destruct p; simpl; intros H; [lia | exact H | exact H]. Qed.

Lemma percentage_le_100 p : is_percentage p -> num_le p (JS.Int 100).
Proof. destruct p; simpl; intros H; [lia | exact H | exact H]. Qed.

Lemma non_decreasing_cons p l :
  (forall q rest, l = q :: rest -> num_le p q) ->
  non_decreasing l -> non_decreasing (p :: l).
Proof.
  intros H N. simpl. split; [| exact N].
  destruct l as [| q rest]; [exact I | apply (H q rest); reflexivity].
Qed.

Lemma non_decreasing_snoc_100 l :
  Forall is_percentage l -> non_decreasing l ->
  non_decreasing (l ++ [JS.Int 100]).
Proof.
  induction l as [| p l IH]; intros F N; [simpl; auto |].
  inversion F as [| ? ? Fp Fl]; subst. destruct N as [H N].
  change ((p :: l) ++ [JS.Int 100]) with (p :: (l ++ [JS.Int 100])).
  apply non_decreasing_cons; [| apply IH; assumption].
  intros q rest E. destruct l as [| q' l'].
  - injection E as <- _. apply percentage_le_100, Fp.
  - injection E as <- _. exact H.
Qed.

Lemma percent_is_percentage a b : 0 < b -> is_percentage (JS.percent a b).
Proof.
  intros H. destruct (JSFacts.percent_range a H) as (z & -> & Z). exact Z.
Qed.

Lemma percent_le a a' b :
  0 < b -> a <= a' -> num_le (JS.percent a b) (JS.percent a' b).
Proof.
  intros Hb H. destruct (JSFacts.percent_mono Hb H) as (z & z' & -> & -> & Z).
  exact Z.
Qed.

(* ================================================================== *)
(** * What the receiving peer does with a prefix of a transfer *)

Lemma handle_chunks_refs cs :
  Forall (fun m => is_chunk m = true) cs ->
  forall r,
    receiveBuffers (fst (handle_all r cs)) = receiveBuffers r ++ pieces cs /\
    metaRef (fst (handle_all r cs)) = metaRef r /\
    downloads (snd (handle_all r cs)) = [].
Proof.
  induction 1 as [| msg cs Hm _ IH]; intros r; simpl.
  - rewrite app_nil_r. auto.
  - destruct msg as [| i p | |]; try discriminate. simpl.
    match goal with |- context [handle_all ?x cs] => specialize (IH x) end.
    destruct (handle_all _ cs) as [r2 es2]. simpl in *.
    destruct IH as (B & M & D). rewrite B, M, <- app_assoc. simpl.
    repeat split. rewrite downloads_app, D.
    destruct (metaRef r); reflexivity.
Qed.

Lemma handle_chunks_progress cs :
  Forall (fun m => is_chunk m = true) cs ->
  forall r m,
    metaRef r = Some m -> 0 < size m ->
    Forall is_percentage (recv_progress (snd (handle_all r cs))) /\
    non_decreasing (recv_progress (snd (handle_all r cs))) /\
    (forall p rest,
        recv_progress (snd (handle_all r cs)) = p :: rest ->
        num_le (JS.percent (receivedBytes r) (size m)) p).
Proof.
  induction 1 as [| msg cs Hm _ IH]; intros r m M S; simpl.
  - repeat split; [constructor | discriminate].
  - destruct msg as [| i p | |]; try discriminate. simpl. rewrite M.
    match goal with |- context [handle_all ?x cs] =>
      specialize (IH x m eq_refl S) end.
    destruct (handle_all _ cs) as [r2 es2]. simpl in *.
    destruct IH as (F & N & H).
    change (recv_progress
              (([SetRecvProgress (JS.percent (receivedBytes r + byteLength p) (size m))]
                ++ [Send (ack i)]) ++ es2))
      with (JS.percent (receivedBytes r + byteLength p) (size m) :: recv_progress es2).
    split; [constructor; [apply percent_is_percentage, S | exact F] |].
    split; [apply non_decreasing_cons; assumption |].
    intros q rest E. injection E as <- _. apply percent_le; [exact S | lia].
Qed.

Section Receiver.

Variable d : Meta.
Variable cs : list IncomingMessage.
Hypothesis chunks : Forall (fun m => is_chunk m = true) cs.
Hypothesis sized : cs = [] \/ 0 < size d.

Lemma handle_descriptor_pieces :
  receiveBuffers (fst (handle_all initial_refs (meta d :: cs))) = pieces cs /\
  metaRef (fst (handle_all initial_refs (meta d :: cs))) = Some d /\
  downloads (snd (handle_all initial_refs (meta d :: cs))) = [] /\
  Forall is_percentage (recv_progress (snd (handle_all initial_refs (meta d :: cs)))) /\
  non_decreasing (recv_progress (snd (handle_all initial_refs (meta d :: cs)))).
Proof.
  simpl.
  match goal with |- context [handle_all ?x cs] => set (r1 := x) end.
  destruct (handle_chunks_refs chunks r1) as (B & M & D).
  assert (P : Forall is_percentage (recv_progress (snd (handle_all r1 cs))) /\
              non_decreasing (recv_progress (snd (handle_all r1 cs)))).
  { destruct sized as [-> | S]; [simpl; auto |].
    destruct (@handle_chunks_progress cs chunks r1 d eq_refl S) as (F & N & _).
    auto. }
  destruct (handle_all r1 cs) as [r2 es2]. simpl in *.
  destruct P as [F N]. repeat split; try assumption.
  - constructor; [simpl; lia | exact F].
  - destruct (recv_progress es2) as [| q rest]; [exact I |].
    inversion F; subst. apply percentage_ge_0. assumption.
Qed.

Lemma handle_whole_transfer :
  receiveBuffers (fst (handle_all initial_refs (meta d :: cs ++ [eof]))) = pieces cs /\
  downloads (snd (handle_all initial_refs (meta d :: cs ++ [eof])))
    = [(name d, mime d, List.concat (pieces cs))] /\
  Forall is_percentage
    (recv_progress (snd (handle_all initial_refs (meta d :: cs ++ [eof])))) /\
  non_decreasing
    (recv_progress (snd (handle_all initial_refs (meta d :: cs ++ [eof])))) /\
  last (recv_progress (snd (handle_all initial_refs (meta d :: cs ++ [eof])))) JS.NaN
    = JS.Int 100.
Proof.
  destruct handle_descriptor_pieces as (B & M & D & F & N).
  change (meta d :: cs ++ [eof]) with ((meta d :: cs) ++ [eof]).
  rewrite handle_all_snoc.
  destruct (handle_all initial_refs (meta d :: cs)) as [r2 es2]. simpl in *.
  rewrite M. simpl. rewrite B, downloads_app, D, recv_progress_app. simpl.
  repeat split.
  - apply Forall_app. split; [exact F | repeat constructor; lia].
  - apply non_decreasing_snoc_100; assumption.
  - apply last_last.
Qed.

End Receiver.


(* ================================================================== *)
(** * A transfer can run to completion *)

Section Completion.

Variable chunk_size : N.
Variable file : File.
Variable conn : DataConnection.
Hypothesis positive : 0 < chunk_size.

Local Abbreviation reachable := (reachable chunk_size file conn).
Local Abbreviation run := (run chunk_size file conn).
Local Abbreviation quiet' := (quiet chunk_size).

Lemma quiet_start :
  exists w, run initial_world [Resume; ReceiverData; SenderData] = Some w /\
            quiet' 0 w.
Proof.
  eexists. split; [reflexivity |]. repeat split.
Qed.

Lemma quiet_round index w :
  quiet' index w -> index * chunk_size < file_size file ->
  exists w', run w [Resume; Resume; ReceiverData; SenderData] = Some w' /\
             quiet' (index + 1) w'.
Proof.
  intros (P & B & R & S & O) L. apply N.ltb_lt in L.
  destruct w as [p sr sl si rr rl ri tr ts o]. simpl in *. subst.
  simpl. rewrite L. simpl. rewrite B. simpl.
  destruct (metaRef rr); simpl; eexists; (split; [reflexivity |]);
    unfold quiet; simpl; repeat split; f_equal; lia.
Qed.

Lemma quiet_finish index w :
  quiet' index w -> file_size file <= index * chunk_size ->
  exists w', run w [Resume; Resume; ReceiverData] = Some w' /\
             pipeline w' = Returned /\ In eof (receiver_inbox w').
Proof.
  intros (P & B & R & S & O) L. apply N.ltb_ge in L.
  destruct w as [p sr sl si rr rl ri tr ts o]. simpl in *. subst.
  simpl. rewrite L. simpl. rewrite B. simpl.
  destruct (metaRef rr); simpl; eexists; (split; [reflexivity |]);
    simpl; (split; [reflexivity |]); apply in_or_app; right; left; reflexivity.
Qed.

Lemma completion_from n : forall index w,
  reachable w -> quiet' index w ->
  (N.to_nat (file_size file - index * chunk_size) <= n)%nat ->
  exists w', reachable w' /\ pipeline w' = Returned /\ In eof (receiver_inbox w').
Proof.
  induction n as [| n IH]; intros index w R Q M.
  - destruct (@quiet_finish index w Q) as (w' & E & P & I); [lia |].
    exists w'. split; [exact (@reachable_run _ _ _ _ _ _ R E) | auto].
  - destruct (N.lt_ge_cases (index * chunk_size) (file_size file)) as [L | L].
    + destruct (@quiet_round index w Q L) as (w' & E & Q').
      apply (IH (index + 1) w'); [exact (@reachable_run _ _ _ _ _ _ R E) | exact Q' | lia].
    + destruct (@quiet_finish index w Q L) as (w' & E & P & I).
      exists w'. split; [exact (@reachable_run _ _ _ _ _ _ R E) | auto].
Qed.

Lemma completion_reachable :
  exists w, reachable w /\ pipeline w = Returned /\ In eof (receiver_inbox w).
Proof.
  destruct quiet_start as (w & E & Q).
  apply (@completion_from (N.to_nat (file_size file)) 0 w);
    [exact (@reachable_run _ _ _ _ _ _ (reachable_initial chunk_size file conn) E)
    | exact Q | lia].
Qed.

End Completion.


(* ================================================================== *)
(** * The transfer as a whole *)

Section Whole.

Variable chunk_size : N.
Variable file : File.
Variable conn : DataConnection.

Local Abbreviation reachable := (reachable chunk_size file conn).
Local Abbreviation steps := (steps chunk_size file conn).
Local Abbreviation step := (step chunk_size file conn).
Local Abbreviation d := (descriptor chunk_size file).
Local Abbreviation first_pieces' := (first_pieces chunk_size file).

(** What the sender has sent, in a reachable state. *)
Lemma sent_shape w :
  reachable w ->
  sent w = [] \/
  exists k tail,
    sent w = meta d :: first_pieces' k ++ tail /\
    (k = 0%nat \/ (N.of_nat k - 1) * chunk_size < file_size file) /\
    ((tail = [] /\ pipeline w <> Returned) \/
     (tail = [eof] /\ pipeline w = Returned /\
      file_size file <= N.of_nat k * chunk_size)).
Proof.
  intros R. destruct (reachable_invariant R) as [S _].
  unfold sender_invariant in S.
  assert (A : forall index reports,
             at_index chunk_size file index (sent w) reports ->
             pipeline w <> Returned ->
             exists k tail,
               sent w = meta d :: first_pieces' k ++ tail /\
               (k = 0%nat \/ (N.of_nat k - 1) * chunk_size < file_size file) /\
               ((tail = [] /\ pipeline w <> Returned) \/
                (tail = [eof] /\ pipeline w = Returned /\
                 file_size file <= N.of_nat k * chunk_size))).
  { intros index reports (M & _ & B) NR.
    exists (N.to_nat index), []. rewrite app_nil_r, N2Nat.id.
    split; [exact M |]. split; [| left; auto].
    destruct B as [-> | B]; [left; reflexivity | right; exact B]. }
  destruct (pipeline w) as [| offset index | offset index [buf |] |] eqn:P.
  - left. apply S.
  - right. destruct S as [_ S]. apply (A _ _ S). discriminate.
  - right. destruct S as (_ & S & _). apply (A _ _ S). discriminate.
  - right. destruct S as (_ & S & _). apply (A _ _ S). discriminate.
  - right. destruct S as (index & msgs & reports & (M & _ & B) & U & S & _).
    exists (N.to_nat index), [eof]. rewrite N2Nat.id, S, M.
    split; [reflexivity |]. split; [| right; auto].
    destruct B as [-> | B]; [left; reflexivity | right; exact B].
Qed.

(** What has been delivered to the receiving peer, in a reachable state. *)
Lemma inbox_shape w :
  reachable w ->
  receiver_inbox w = [] \/
  (exists j,
      receiver_inbox w = meta d :: first_pieces' j /\
      (first_pieces' j = [] \/ 0 < file_size file)) \/
  (exists k,
      receiver_inbox w = meta d :: first_pieces' k ++ [eof] /\
      sent w = receiver_inbox w /\
      (first_pieces' k = [] \/ 0 < file_size file) /\
      file_size file <= N.of_nat k * chunk_size).
Proof.
  intros R. destruct (reachable_invariant R) as [_ (_ & _ & (dropped & S & _) & _)].
  destruct (sent_shape R) as [E | (k & tail & E & B & T)].
  - rewrite E in S. symmetry in S. apply app_eq_nil in S. left. apply S.
  - rewrite E in S. symmetry in S.
    assert (Z : forall j, (j <= k)%nat ->
                  first_pieces' j = [] \/ 0 < file_size file).
    { intros j J. destruct B as [-> | B];
        [| right; apply N.le_lt_trans with (2 := B); apply N.le_0_l].
      left. replace j with 0%nat by lia. reflexivity. }
    assert (T' : tail = [] \/ tail = [eof]) by (destruct T as [[-> _] | [-> _]]; auto).
    destruct (prefix_of_wire _ _ _ _ _ S T') as [L | [(j & J & L) | (Te & L)]].
    + left. exact L.
    + right; left. exists j. split; [exact L | apply Z, J].
    + right; right. exists k. destruct T as [[-> _] | (_ & _ & U)]; [discriminate |].
      rewrite E, Te, L. repeat split; [apply Z; lia | exact U].
Qed.

Lemma eof_not_in_pieces j : ~ In eof (meta d :: first_pieces' j).
Proof.
  intros [H | H]; [discriminate |].
  assert (C := first_pieces_chunks chunk_size file j).
  rewrite Forall_forall in C. specialize (C _ H). discriminate.
Qed.

Lemma receiver_log_views w :
  reachable w ->
  recv_progress (receiver_log w)
    = recv_progress (snd (handle_all initial_refs (receiver_inbox w))) /\
  downloads (receiver_log w)
    = downloads (snd (handle_all initial_refs (receiver_inbox w))).
Proof.
  intros R. destruct (reachable_invariant R) as [_ (_ & _ & _ & _ & L)].
  rewrite L, recv_progress_app, downloads_app.
  destruct (open w); simpl; rewrite !app_nil_r; auto.
Qed.

Lemma pieces_of_transfer k :
  pieces (meta d :: first_pieces' k ++ [eof]) = pieces (first_pieces' k).
Proof.
  change (meta d :: first_pieces' k ++ [eof])
    with ([meta d] ++ first_pieces' k ++ [eof]).
  rewrite !pieces_app. simpl. apply app_nil_r.
Qed.

Lemma whole_file k :
  file_size file <= N.of_nat k * chunk_size ->
  List.concat (pieces (first_pieces' k)) = file_bytes file.
Proof.
  intros U. rewrite concat_first_pieces. apply firstn_all2.
  unfold file_size, byteLength in U. lia.
Qed.

(** C3.  With a positive piece size: when [sendFile] has returned it has
    sent [ceil(S/P)] pieces, every piece but the last carries [P] bytes, and
    the pieces together are the file; when the end marker has been
    delivered, the buffers stored by the receiver are the pieces sent, in
    order, their concatenation is the file, and it is what was handed over
    for saving; and the transfer can run to this end. *)
Theorem C3_pieces_and_reassembly :
  0 < chunk_size ->
  (forall w, reachable w -> pipeline w = Returned ->
     List.length (pieces (sent w))
       = N.to_nat (ceiling_quotient (file_size file) chunk_size) /\
     (forall i, (S i < List.length (pieces (sent w)))%nat ->
                byteLength (nth i (pieces (sent w)) []) = chunk_size) /\
     List.concat (pieces (sent w)) = file_bytes file) /\
  (forall w, reachable w -> In eof (receiver_inbox w) ->
     receiveBuffers (receiver_refs w) = pieces (sent w) /\
     List.concat (receiveBuffers (receiver_refs w)) = file_bytes file /\
     downloads (receiver_log w) = [(file_name file, mime d, file_bytes file)]) /\
  (exists w, reachable w /\ pipeline w = Returned /\ In eof (receiver_inbox w)).
Proof.
  intros P. split; [| split].
  - intros w R Ret.
    destruct (sent_shape R) as [E | (k & tail & E & B & [[_ T] | (-> & _ & U)])].
    + destruct (reachable_invariant R) as [S _]. unfold sender_invariant in S.
      rewrite Ret in S. destruct S as (? & msgs & ? & _ & _ & S & _).
      rewrite E in S. destruct msgs; discriminate.
    + contradiction.
    + rewrite E, pieces_of_transfer, length_first_pieces.
      split; [| split].
      * rewrite <- (@exit_index chunk_size file (N.of_nat k) P U); [lia |].
        destruct B as [-> | B]; [left; reflexivity | right; exact B].
      * intros i I. rewrite nth_first_pieces by lia.
        apply slice_full.
        destruct B as [-> | B]; [lia |].
        assert (N.of_nat (S i) * chunk_size <= (N.of_nat k - 1) * chunk_size).
        { apply N.mul_le_mono_r. lia. }
        lia.
      * apply whole_file, U.
  - intros w R I.
    destruct (reachable_invariant R) as [_ (_ & _ & _ & Rr & _)].
    destruct (receiver_log_views R) as [_ D].
    destruct (inbox_shape R) as [E | [(j & E & _) | (k & E & S & Z & U)]].
    + rewrite E in I. contradiction.
    + rewrite E in I. apply eof_not_in_pieces in I. contradiction.
    + destruct (@handle_whole_transfer d (first_pieces' k)
                  (first_pieces_chunks chunk_size file k) Z) as (B & L & _).
      rewrite Rr, D, S, E, B, L, pieces_of_transfer, (whole_file _ U).
      auto.
  - apply completion_reachable, P.
Qed.

(** The reports of the sender at [index]. *)
Lemma reports_in_order index msgs reports :
  at_index chunk_size file index msgs reports ->
  Forall is_percentage reports /\ non_decreasing reports.
Proof.
  intros (_ & -> & B).
  assert (S : (N.to_nat index = 0)%nat \/ 0 < file_size file).
  { destruct B as [-> | B]; [left; reflexivity | right].
    apply N.le_lt_trans with (2 := B). apply N.le_0_l. }
  clear B. generalize (N.to_nat index) S. clear S index. intros n S.
  assert (G : forall a,
             Forall is_percentage (map (report chunk_size file) (seq a n)) /\
             non_decreasing (map (report chunk_size file) (seq a n)) /\
             (forall q rest,
                 map (report chunk_size file) (seq a n) = q :: rest ->
                 q = report chunk_size file a)).
  { destruct S as [-> | S]; [intros a; simpl; repeat split; [constructor | discriminate] |].
    induction n as [| n IH]; intros a; simpl.
    - repeat split; [constructor | discriminate].
    - destruct (IH (Datatypes.S a)) as (F & N & H).
      split; [constructor; [apply percent_is_percentage, S | exact F] |].
      split; [| intros q rest E; injection E as <- _; reflexivity].
      split; [| exact N].
      destruct (map (report chunk_size file) (seq (Datatypes.S a) n))
        as [| q rest] eqn:E; [exact I |].
      rewrite (H q rest eq_refl). apply percent_le; [exact S | lia]. }
  destruct (G 0%nat) as (F & N & H).
  split; [constructor; [simpl; lia | exact F] |].
  apply non_decreasing_cons; [| exact N].
  intros q rest E. inversion F as [| ? ? Fq _]; [congruence |].
  rewrite E in *. apply percentage_ge_0.
  match goal with X : _ :: _ = q :: rest |- _ => injection X as -> _ end.
  exact Fq.
Qed.

(** C6.  In every state of a transfer, the values reported so far by the
    sender and by the receiver are integers of 0..100 in non-decreasing
    order; once [sendFile] has returned the last report of the sender is
    100, and once the end marker has been delivered the last report of the
    receiver is 100. *)
Theorem C6_progress_monotone :
  forall w, reachable w ->
    Forall is_percentage (send_progress (sender_log w)) /\
    non_decreasing (send_progress (sender_log w)) /\
    Forall is_percentage (recv_progress (receiver_log w)) /\
    non_decreasing (recv_progress (receiver_log w)) /\
    (pipeline w = Returned ->
       last (send_progress (sender_log w)) JS.NaN = JS.Int 100) /\
    (In eof (receiver_inbox w) ->
       last (recv_progress (receiver_log w)) JS.NaN = JS.Int 100).
Proof.
  intros w R.
  assert (Snd : Forall is_percentage (send_progress (sender_log w)) /\
                non_decreasing (send_progress (sender_log w)) /\
                (pipeline w = Returned ->
                   last (send_progress (sender_log w)) JS.NaN = JS.Int 100)).
  { destruct (reachable_invariant R) as [S _]. unfold sender_invariant in S.
    destruct (pipeline w) as [| offset index | offset index [buf |] |].
    - destruct S as [_ ->]. repeat split; [constructor | discriminate].
    - destruct S as [_ S]. destruct (reports_in_order S).
      repeat split; [assumption .. | discriminate].
    - destruct S as (_ & S & _). destruct (reports_in_order S).
      repeat split; [assumption .. | discriminate].
    - destruct S as (_ & S & _). destruct (reports_in_order S).
      repeat split; [assumption .. | discriminate].
    - destruct S as (index & msgs & reports & S & _ & _ & ->).
      destruct (reports_in_order S) as [F N].
      split; [apply Forall_app; split; [exact F | repeat constructor; lia] |].
      split; [apply non_decreasing_snoc_100; assumption |].
      intros _. apply last_last. }
  destruct Snd as (S1 & S2 & S3).
  destruct (receiver_log_views R) as [V _]. rewrite V.
  repeat split; try assumption;
    destruct (inbox_shape R) as [E | [(j & E & Z) | (k & E & _ & Z & _)]];
    rewrite E in *;
    try (simpl; constructor);
    try (destruct (@handle_descriptor_pieces d (first_pieces' j)
                    (first_pieces_chunks chunk_size file j) Z)
           as (_ & _ & _ & F & N); assumption);
    try (destruct (@handle_whole_transfer d (first_pieces' k)
                    (first_pieces_chunks chunk_size file k) Z)
           as (_ & _ & F & N & L); assumption).
  - intros I. contradiction.
  - intros I. apply eof_not_in_pieces in I. contradiction.
  - intros _.
    destruct (@handle_whole_transfer d (first_pieces' k)
                (first_pieces_chunks chunk_size file k) Z)
      as (_ & _ & F & N & L). exact L.
Qed.

(** C7, on the code.  For an empty file [sendFile] sends the descriptor
    and the end marker and nothing else, and what the receiver saves is the
    empty buffer; but the end marker can leave, and [sendFile] return,
    before anything has been delivered to either peer: [waitForAck] finds
    the flag clear and waits for nothing. *)
Theorem C7_eof_before_ready :
  file_size file = 0 ->
  (forall w, reachable w -> pipeline w = Returned -> sent w = [meta d; eof]) /\
  (forall w, reachable w -> In eof (receiver_inbox w) ->
     downloads (receiver_log w) = [(file_name file, mime d, [])]) /\
  (exists w,
     reachable w /\ pipeline w = Returned /\ sent w = [meta d; eof] /\
     sender_inbox w = [] /\ receiver_inbox w = []).
Proof.
  intros Z. split; [| split].
  - intros w R Ret.
    destruct (sent_shape R) as [E | (k & tail & E & B & [[_ T] | (-> & _ & _)])].
    + destruct (reachable_invariant R) as [S _]. unfold sender_invariant in S.
      rewrite Ret in S. destruct S as (? & msgs & ? & _ & _ & S & _).
      rewrite E in S. destruct msgs; discriminate.
    + contradiction.
    + destruct B as [-> | B]; [exact E |].
      rewrite Z in B. exfalso. apply (N.nlt_0_r _ B).
  - intros w R I.
    destruct (receiver_log_views R) as [_ D].
    destruct (inbox_shape R) as [E | [(j & E & _) | (k & E & _ & [P | P] & _)]].
    + rewrite E in I. contradiction.
    + rewrite E in I. apply eof_not_in_pieces in I. contradiction.
    + destruct (@handle_whole_transfer d (first_pieces' k)
                  (first_pieces_chunks chunk_size file k) (or_introl P))
        as (_ & L & _).
      rewrite D, E, L, P. reflexivity.
    + rewrite Z in P. lia.
  - destruct (two_sends_at_once chunk_size file conn)
      as (w & second & R & S & E & I & J & P).
    exists w.
    split; [exact (@reachable_run _ _ _ _ _ _ (reachable_initial _ _ _) R) |].
    rewrite Z in E, P. simpl in E, P. subst second. auto.
Qed.

End Whole.


(* ================================================================== *)
(** * After the connection has closed *)

Section AfterClose.

Variable chunk_size : N.
Variable file : File.
Variable conn : DataConnection.

Local Abbreviation steps := (steps chunk_size file conn).
Local Abbreviation step := (step chunk_size file conn).

(** One move of a closed world: only the pipeline can run; it sends at most
    one message, and only with the flag clear, which it then sets. *)
Lemma closed_step w w' :
  open w = false -> pipeline w <> Ready -> step w w' ->
  open w' = false /\ pipeline w' <> Ready /\
  to_receiver w' = to_receiver w /\ to_sender w' = to_sender w /\
  receiver_inbox w' = receiver_inbox w /\ sender_inbox w' = sender_inbox w /\
  receiver_refs w' = receiver_refs w /\ receiver_log w' = receiver_log w /\
  exists l,
    sent w' = sent w ++ l /\
    (List.length l + sends_left (sender_refs w') <= sends_left (sender_refs w))%nat.
Proof.
  intros O P [e F]. destruct e; simpl in F; rewrite O in F; try discriminate.
  unfold sent, sends_left.
  destruct (pipeline w) as [| offset index | offset index [buf |] |] eqn:E;
    simpl in F.
  - congruence.
  - destruct (offset <? file_size file); injection F as <-; simpl;
      repeat split; try discriminate; exists []; rewrite !app_nil_r; auto.
  - destruct (busyRef (sender_refs w)) eqn:B; [discriminate |].
    injection F as <-. simpl. rewrite sends_app. simpl.
    repeat split; try discriminate. eexists. split; [reflexivity |]. simpl. lia.
  - destruct (busyRef (sender_refs w)) eqn:B; [discriminate |].
    injection F as <-. simpl. rewrite sends_app. simpl.
    repeat split; try discriminate. eexists. split; [reflexivity |]. simpl. lia.
  - discriminate.
Qed.

(** A closed world: the channel and the receiver stay as they are; the
    pipeline calls [send] at most once more, and not at all when the flag is
    set. *)
Lemma after_close w w' :
  open w = false -> pipeline w <> Ready -> steps w w' ->
  (to_receiver w' = to_receiver w /\ to_sender w' = to_sender w /\
   receiver_inbox w' = receiver_inbox w /\ sender_inbox w' = sender_inbox w /\
   receiver_refs w' = receiver_refs w /\ receiver_log w' = receiver_log w) /\
  exists l,
    sent w' = sent w ++ l /\ (List.length l <= 1)%nat /\
    (busyRef (sender_refs w) = true -> l = []).
Proof.
  intros O P S.
  assert (G : open w' = false /\ pipeline w' <> Ready /\
              (to_receiver w' = to_receiver w /\ to_sender w' = to_sender w /\
               receiver_inbox w' = receiver_inbox w /\
               sender_inbox w' = sender_inbox w /\
               receiver_refs w' = receiver_refs w /\
               receiver_log w' = receiver_log w) /\
              exists l,
                sent w' = sent w ++ l /\
                (List.length l + sends_left (sender_refs w')
                 <= sends_left (sender_refs w))%nat).
  { induction S as [| w1 w2 _ IH St].
    - repeat split; try assumption. exists []. rewrite app_nil_r. auto.
    - destruct IH as (O1 & P1 & (A & B & C & D & E & F) & (l & L & N)).
      destruct (closed_step O1 P1 St)
        as (O2 & P2 & A2 & B2 & C2 & D2 & E2 & F2 & (l2 & L2 & N2)).
      repeat split; try congruence.
      exists (l ++ l2). rewrite L2, L, app_assoc, length_app. split; [reflexivity | lia]. }
  destruct G as (_ & _ & Fr & (l & L & N)). split; [exact Fr |].
  exists l. split; [exact L |]. unfold sends_left in N.
  split.
  - destruct (busyRef (sender_refs w)); lia.
  - intros B. rewrite B in N. destruct l; [reflexivity | simpl in N; lia].
Qed.

End AfterClose.

(* ================================================================== *)
(** * A close during a transfer: the pipeline goes on *)

Section CloseDuringTransfer.

Variable chunk_size : N.
Variable file : File.
Variable conn : DataConnection.

Local Abbreviation reachable := (reachable chunk_size file conn).
Local Abbreviation steps := (steps chunk_size file conn).
Local Abbreviation fire := (fire chunk_size file conn).

(** Until [sendFile] has returned the receiver has not been handed the end
    marker. *)
Lemma no_eof_before_return w :
  reachable w -> pipeline w <> Returned -> ~ In eof (receiver_inbox w).
Proof.
  intros R P I.
  destruct (inbox_shape R) as [E | [(j & E & _) | (k & E & S & _)]].
  - rewrite E in I. contradiction.
  - rewrite E in I. apply eof_not_in_pieces in I. exact I.
  - destruct (sent_shape R) as [N | (k' & tail & N & _ & [[-> _] | (_ & Q & _)])].
    + rewrite S, E in N. discriminate N.
    + rewrite <- S, N, app_nil_r in I. apply eof_not_in_pieces in I. exact I.
    + contradiction.
Qed.

(** C8, where the code departs from it.  The connection closes while
    [sendFile] is suspended with the flag clear.  The listener of ["close"]
    runs: it sets [connected], [conn] and the status, so that the guard of
    a new call of [sendFile] fails, and it leaves the running pipeline where
    it is.  The pipeline goes on with the connection it has captured: it
    calls [send] for the pending piece or the end marker, and after the end
    marker it reports 100 and sets the status [Sent], after [Disconnected].
    A closed connection carries nothing: the receiver's inbox stays as it
    was at the close, without the end marker.  After this one call the
    sender calls [send] no more. *)
Theorem C8_close_does_not_abort w offset index pending :
  reachable w -> open w = true ->
  pipeline w = WaitForAck offset index pending ->
  busyRef (sender_refs w) = false ->
  exists wc w',
    fire w Close = Some wc /\
    sender_log wc = sender_log w ++ snd (onClose (sender_refs w)) /\
    snd (onClose (sender_refs w))
      = [SetConnected false; SetConn None; SetStatus Disconnected] /\
    (forall v,
        UI.sendFile_guard
          (UI.last_of v (UI.callback v (UI.Closed (sender_refs w)))) = None) /\
    pipeline wc = WaitForAck offset index pending /\
    fire wc Resume = Some w' /\
    sender_log w' =
      sender_log wc ++
      match pending with
      | Some buf =>
          [Send (chunk (Z.of_N index) buf);
           SetSendProgress (JS.percent (offset + chunk_size) (file_size file))]
      | None => [Send eof; SetSendProgress (JS.Int 100); SetStatus Sent]
      end /\
    (pending = None -> pipeline w' = Returned) /\
    forall w'',
      steps w' w'' ->
      sent w'' = sent w' /\
      receiver_inbox w'' = receiver_inbox w /\
      ~ In eof (receiver_inbox w'').
Proof.
  intros R O P B.
  assert (NE : ~ In eof (receiver_inbox w)).
  { apply no_eof_before_return; [exact R | rewrite P; discriminate]. }
  destruct (fire w Close) as [wc |] eqn:C;
    [| simpl in C; rewrite O in C; discriminate C].
  assert (Wc : sender_log wc = sender_log w ++ snd (onClose (sender_refs w)) /\
               pipeline wc = pipeline w /\ sender_refs wc = sender_refs w /\
               open wc = false /\ receiver_inbox wc = receiver_inbox w).
  { simpl in C. rewrite O in C. injection C as <-. repeat split. }
  destruct Wc as (Lc & Pc & Rc & Oc & Ic).
  destruct (fire wc Resume) as [w' |] eqn:F.
  2:{ simpl in F. rewrite Pc, P in F. simpl in F. rewrite Rc, B in F.
      destruct pending; discriminate F. }
  assert (W' : sender_log w' =
               sender_log wc ++
               match pending with
               | Some buf =>
                   [Send (chunk (Z.of_N index) buf);
                    SetSendProgress
                      (JS.percent (offset + chunk_size) (file_size file))]
               | None => [Send eof; SetSendProgress (JS.Int 100); SetStatus Sent]
               end /\
               (pending = None -> pipeline w' = Returned) /\
               pipeline w' <> Ready /\ open w' = false /\
               busyRef (sender_refs w') = true /\
               receiver_inbox w' = receiver_inbox w).
  { simpl in F. rewrite Pc, P in F. simpl in F. rewrite Rc, B in F.
    destruct pending as [buf |]; injection F as <-; simpl;
      repeat split; try discriminate; assumption. }
  destruct W' as (L' & P' & N' & O' & B' & I').
  exists wc, w'. split; [reflexivity |]. split; [exact Lc |].
  split; [reflexivity |].
  split; [intros v; unfold UI.sendFile_guard; simpl; destruct (UI.file v); reflexivity |].
  split; [congruence |]. split; [exact F |].
  split; [exact L' |]. split; [exact P' |].
  intros w'' S.
  destruct (after_close O' N' S) as ((_ & _ & I'' & _) & (l & E & _ & Z)).
  rewrite (Z B'), app_nil_r in E.
  split; [exact E |]. rewrite I'', I'. split; [reflexivity | exact NE].
Qed.

End CloseDuringTransfer.

(** The file of three bytes, both pieces acknowledged, the sender waiting
    to send the end marker: the connection closes, the end marker is passed
    to [send] all the same and the status [Sent] follows [Disconnected],
    while the receiver holds the two pieces and no end marker. *)
Lemma C8_witness :
  reachable 2 three_bytes 7%nat last_wait_world /\
  open last_wait_world = true /\
  pipeline last_wait_world = WaitForAck 4 2 None /\
  busyRef (sender_refs last_wait_world) = false /\
  receiver_inbox last_wait_world
    = [meta (descriptor 2 three_bytes);
       chunk 0 [x61; x62]%byte; chunk 1 [x63]%byte] /\
  exists wc w',
    fire 2 three_bytes 7%nat last_wait_world Close = Some wc /\
    fire 2 three_bytes 7%nat wc Resume = Some w' /\
    pipeline w' = Returned /\
    sender_log w' =
      sender_log last_wait_world ++
      [SetConnected false; SetConn None; SetStatus Disconnected;
       Send eof; SetSendProgress (JS.Int 100); SetStatus Sent] /\
    forall w'',
      steps 2 three_bytes 7%nat w' w'' ->
      receiver_inbox w'' = receiver_inbox last_wait_world /\
      ~ In eof (receiver_inbox w'').
Proof.
  assert (R : reachable 2 three_bytes 7%nat last_wait_world).
  { apply (@reachable_run 2 three_bytes 7%nat (firstn 12 lockstep) initial_world);
      [constructor | vm_compute; reflexivity]. }
  split; [exact R |]. split; [reflexivity |]. split; [reflexivity |].
  split; [reflexivity |]. split; [reflexivity |].
  destruct (@C8_close_does_not_abort 2 three_bytes 7%nat last_wait_world
              4 2 None R eq_refl eq_refl eq_refl)
    as (wc & w' & C & Lc & Ec & _ & _ & F & L' & P' & After).
  exists wc, w'. split; [exact C |]. split; [exact F |].
  split; [exact (P' eq_refl) |].
  split; [rewrite L', Lc, Ec, <- app_assoc; reflexivity |].
  intros w'' S. destruct (After w'' S) as (_ & I & N). split; assumption.
Defined.


(* ================================================================== *)
(** * How far the sender runs ahead *)

Section Window.

Variable chunk_size : N.
Variable file : File.
Variable conn : DataConnection.

Local Abbreviation reachable := (reachable chunk_size file conn).
Local Abbreviation step := (step chunk_size file conn).

Lemma window_step w w' :
  invariant chunk_size file w -> window w -> step w w' -> window w'.
Proof.
  intros [S (A & _)] [B K] [e F]. unfold window, sent in *.
  destruct e; simpl in F.
  - unfold sender_invariant, sent in S.
    destruct (pipeline w) as [| offset index | offset index [buf |] |] eqn:P;
      simpl in F.
    + injection F as <-. simpl. destruct S as [S _].
      rewrite sends_app, S, (B eq_refl). simpl. split; [discriminate | lia].
    + destruct (offset <? file_size file); injection F as <-; simpl;
        rewrite app_nil_r; split; try discriminate; exact K.
    + destruct (busyRef (sender_refs w)); [discriminate |]. injection F as <-.
      simpl. rewrite sends_app, length_app. simpl. split; [discriminate | lia].
    + destruct (busyRef (sender_refs w)); [discriminate |]. injection F as <-.
      simpl. rewrite sends_app, length_app. simpl. split; [discriminate | lia].
    + discriminate.
  - destruct (open w); [| discriminate].
    destruct (to_receiver w) as [| msg q]; [discriminate |].
    destruct (onData (receiver_refs w) msg). injection F as <-. simpl. auto.
  - destruct (open w); [| discriminate].
    destruct (to_sender w) as [| msg q] eqn:Q; [discriminate |].
    inversion A as [| ? ? Hm _]; subst.
    destruct msg; try discriminate. simpl in F. injection F as <-. simpl.
    rewrite app_nil_r, length_app. simpl. split; [reflexivity |].
    destruct (busyRef (sender_refs w)); lia.
  - destruct (open w); [| discriminate]. injection F as <-. simpl.
    rewrite sends_app. simpl. rewrite app_nil_r. auto.
Qed.

Lemma reachable_window w : reachable w -> window w.
Proof.
  induction 1 as [| w w' R IH St].
  - split; [reflexivity | simpl; lia].
  - apply window_step with w; [apply (reachable_invariant R) | exact IH | exact St].
Qed.

(** No more than two messages are ever unacknowledged. *)
Lemma outstanding_at_most_two w : reachable w -> (outstanding w <= 2)%Z.
Proof.
  intros R. destruct (reachable_window R) as [_ K].
  destruct (reachable_invariant R) as [_ (_ & B & _)].
  unfold outstanding, acknowledged.
  assert (E : filter is_ack (sender_inbox w) = sender_inbox w).
  { clear K. induction B as [| m l Hm _ IH]; [reflexivity |].
    simpl. rewrite Hm, IH. reflexivity. }
  rewrite E. destruct (busyRef (sender_refs w)); lia.
Qed.

End Window.

(* ================================================================== *)
(** * The theorems at a file of three bytes and at an empty file *)

(** Piece 0 of the file of three bytes leaves before anything is
    delivered. *)
Lemma C2_witness :
  0 < file_size three_bytes /\
  exists w,
    reachable 2 three_bytes 7%nat w /\
    sent w = [meta (descriptor 2 three_bytes); chunk 0 [x61; x62]%byte] /\
    sender_inbox w = [] /\ receiver_inbox w = [].
Proof.
  split; [reflexivity |].
  exact (@C2_piece_0_before_ready 2 three_bytes 7%nat eq_refl).
Defined.

(** The end marker of the empty file leaves before anything is
    delivered. *)
Lemma C7_witness :
  file_size empty_file = 0 /\
  exists w,
    reachable App_chunkSize empty_file 7%nat w /\ pipeline w = Returned /\
    sent w = [meta (descriptor App_chunkSize empty_file); eof] /\
    sender_inbox w = [] /\ receiver_inbox w = [].
Proof.
  split; [reflexivity |].
  exact (proj2 (proj2 (@C7_eof_before_ready App_chunkSize empty_file 7%nat eq_refl))).
Defined.

(** The file of three bytes in pieces of two, every message delivered
    before the next one leaves. *)
Lemma C3_witness :
  0 < 2 /\
  exists w,
    run 2 three_bytes 7%nat initial_world lockstep = Some w /\
    pipeline w = Returned /\ In eof (receiver_inbox w) /\
    List.length (pieces (sent w)) = 2%nat /\
    List.concat (receiveBuffers (receiver_refs w)) = [x61; x62; x63]%byte /\
    downloads (receiver_log w)
      = [("abc.txt"%string, "text/plain"%string, [x61; x62; x63]%byte)].
Proof.
  split; [reflexivity |].
  destruct (run 2 three_bytes 7%nat initial_world lockstep) as [w |] eqn:E;
    [| vm_compute in E; discriminate E].
  exists w. split; [reflexivity |].
  assert (R : reachable 2 three_bytes 7%nat w).
  { apply (@reachable_run _ _ _ _ _ _ (reachable_initial _ _ _) E). }
  assert (P : pipeline w = Returned /\ In eof (receiver_inbox w)).
  { vm_compute in E. injection E as <-. split; [reflexivity |].
    simpl. auto. }
  destruct P as [P I].
  destruct (@C3_pieces_and_reassembly 2 three_bytes 7%nat eq_refl)
    as (S & V & _).
  destruct (S w R P) as (L & _). destruct (V w R I) as (_ & C & D).
  repeat split; assumption.
Defined.

(** The reports of the same transfer. *)
Lemma C6_witness :
  exists w,
    run 2 three_bytes 7%nat initial_world lockstep = Some w /\
    send_progress (sender_log w) = [JS.Int 0; JS.Int 66; JS.Int 100; JS.Int 100] /\
    recv_progress (receiver_log w) = [JS.Int 0; JS.Int 66; JS.Int 100; JS.Int 100] /\
    non_decreasing (send_progress (sender_log w)) /\
    non_decreasing (recv_progress (receiver_log w)) /\
    last (send_progress (sender_log w)) JS.NaN = JS.Int 100 /\
    last (recv_progress (receiver_log w)) JS.NaN = JS.Int 100.
Proof.
  destruct (run 2 three_bytes 7%nat initial_world lockstep) as [w |] eqn:E;
    [| vm_compute in E; discriminate E].
  exists w. split; [reflexivity |].
  assert (R : reachable 2 three_bytes 7%nat w).
  { apply (@reachable_run _ _ _ _ _ _ (reachable_initial _ _ _) E). }
  destruct (@C6_progress_monotone 2 three_bytes 7%nat w R)
    as (_ & S & _ & V & LS & LR).
  assert (P : pipeline w = Returned /\ In eof (receiver_inbox w) /\
              send_progress (sender_log w)
                = [JS.Int 0; JS.Int 66; JS.Int 100; JS.Int 100] /\
              recv_progress (receiver_log w)
                = [JS.Int 0; JS.Int 66; JS.Int 100; JS.Int 100]).
  { vm_compute in E. injection E as <-. repeat split. simpl. auto. }
  destruct P as (P & I & A & B).
  repeat split; auto.
Defined.


(* ================================================================== *)
(** * The percentage shown: when it reads 100 *)

Module PercentFacts.
Import JS.
Local Open Scope Q_scope.

Lemma fl_below_one : fl below_one == below_one.
Proof. vm_compute. reflexivity. Qed.

Lemma floor_below_hundred : Qfloor (mul100 below_one) = 99%Z.
Proof. vm_compute. reflexivity. Qed.

Lemma div_ge_1 a b : (0 < b)%N -> (b <= a)%N -> 1 <= div a b.
Proof.
  intros Hb H. unfold div.
  assert (P := JSFacts.NtoQ_pos Hb).
  apply Qle_trans with (fl (inject_Z 1)).
  - rewrite JSFacts.fl_exact by (split; [lia | reflexivity]). apply Qle_refl.
  - apply JSFacts.fl_mono. apply Qle_shift_div_l; [exact P |].
    rewrite Qmult_1_l. apply JSFacts.NtoQ_le, H.
Qed.

Lemma div_below_one a b :
  (a < b)%N -> (b < 2 ^ 53)%N -> div a b <= below_one.
Proof.
  intros H Hb. unfold div.
  assert (P : 0 < NtoQ b) by (apply JSFacts.NtoQ_pos; lia).
  apply Qle_trans with (fl below_one); [| rewrite fl_below_one; apply Qle_refl].
  apply JSFacts.fl_mono. apply Qle_shift_div_r; [exact P |].
  assert (X : NtoQ a + 1 <= NtoQ b).
  { unfold NtoQ. change 1 with (inject_Z 1).
    rewrite <- inject_Z_plus, <- Zle_Qle. lia. }
  assert (Y : NtoQ b <= 9007199254740992 # 1).
  { unfold NtoQ. change (9007199254740992 # 1) with (inject_Z 9007199254740992).
    rewrite <- Zle_Qle. change 9007199254740992%Z with (Z.of_N (2 ^ 53)). lia. }
  unfold below_one. lra.
Qed.

Lemma percent_partial a b :
  (a < b)%N -> (b < 2 ^ 53)%N ->
  exists z, percent a b = Int z /\ (0 <= z <= 99)%Z.
Proof.
  intros L Hs. assert (Hb : (0 < b)%N) by lia.
  destruct (JSFacts.percent_range a Hb) as (z & E & Z0). exists z.
  split; [exact E |]. rewrite (JSFacts.percent_Int a Hb) in E. injection E as E.
  assert (F : (Qfloor (mul100 (div a b)) <= 99)%Z).
  { rewrite <- floor_below_hundred.
    apply Qfloor_resp_le, JSFacts.mul100_mono, div_below_one; assumption. }
  lia.
Qed.

Lemma percent_full a b : (0 < b)%N -> (b <= a)%N -> percent a b = Int 100.
Proof.
  intros Hb L. rewrite (JSFacts.percent_Int a Hb). f_equal.
  assert (F : (100 <= Qfloor (mul100 (div a b)))%Z).
  { rewrite <- (Qfloor_Z 100). apply Qfloor_resp_le.
    apply Qle_trans with (fl (inject_Z 100)).
    - rewrite JSFacts.fl_exact by (split; [lia | reflexivity]). apply Qle_refl.
    - unfold mul100. apply JSFacts.fl_mono.
      assert (D := div_ge_1 Hb L). change (inject_Z 100) with 100. lra. }
  lia.
Qed.

Lemma percent_ge_of_100 a b :
  (0 < b)%N -> (b < 2 ^ 53)%N -> percent a b = Int 100 -> (b <= a)%N.
Proof.
  intros Hb Hs E. destruct (N.le_gt_cases b a) as [L | L]; [exact L | exfalso].
  destruct (percent_partial L Hs) as (z & Ez & Z0).
  rewrite E in Ez. injection Ez as <-. lia.
Qed.

End PercentFacts.

(** X1.  For byte counts, [Math.min(100, Math.floor((a / b) * 100))] is 100
    exactly when [b <= a]: the two roundings never lift a quotient below 1
    to 100, and never drop one of at least 1 under it. *)
Theorem X1_percent_100_iff a b :
  0 < b -> b < 2 ^ 53 -> (JS.percent a b = JS.Int 100 <-> b <= a).
Proof.
  intros Hb Hs. split.
  - apply PercentFacts.percent_ge_of_100; assumption.
  - apply PercentFacts.percent_full, Hb.
Qed.


(* ================================================================== *)
(** * The handler on any sequence of messages *)

Lemma byteLength_app a b : byteLength (a ++ b) = byteLength a + byteLength b.
Proof. unfold byteLength. rewrite length_app. lia. Qed.

Lemma onData_acks r msg : sends (snd (onData r msg)) = acks_for [msg].
Proof.
  destruct msg as [m | i p | | i]; simpl; try reflexivity;
    destruct (metaRef r); reflexivity.
Qed.

Lemma acks_for_app a b : acks_for (a ++ b) = acks_for a ++ acks_for b.
Proof. unfold acks_for. apply flat_map_app. Qed.

Lemma handle_all_acks msgs : forall r,
  sends (snd (handle_all r msgs)) = acks_for msgs.
Proof.
  induction msgs as [| m msgs IH]; intros r; simpl; [reflexivity |].
  assert (A := onData_acks r m).
  destruct (onData r m) as [r1 es1]. specialize (IH r1).
  destruct (handle_all r1 msgs) as [r2 es2]. simpl in *.
  rewrite sends_app, A, IH. simpl.
  destruct m; reflexivity.
Qed.

Lemma onData_counts r msg :
  counted r -> counted (fst (onData r msg)).
Proof.
  unfold counted. intros H. destruct msg as [m | i p | | i]; simpl.
  - reflexivity.
  - rewrite concat_app, byteLength_app, H. simpl. rewrite app_nil_r. reflexivity.
  - destruct (metaRef r); exact H.
  - exact H.
Qed.

(** X2.  Whatever messages arrive, in whatever order, the byte counter is
    the total length of the stored buffers. *)
Theorem X2_bytes_are_counted (msgs : list IncomingMessage) :
  receivedBytes (fst (handle_all initial_refs msgs))
    = byteLength (List.concat (receiveBuffers (fst (handle_all initial_refs msgs)))).
Proof.
  assert (G : forall r, counted r -> counted (fst (handle_all r msgs))).
  { induction msgs as [| m msgs IH]; intros r H; simpl; [exact H |].
    assert (C := onData_counts m H).
    destruct (onData r m) as [r1 es1]. specialize (IH r1 C).
    destruct (handle_all r1 msgs). exact IH. }
  apply G. reflexivity.
Qed.

(** X3.  A whole transfer delivered to refs in any state: what is saved is
    the concatenation of the pieces of this transfer under the name and type
    of its descriptor, once, and nothing of what the refs held before is
    left in the buffers or in the byte counter. *)
Theorem X3_transfer_from_any_state (r : Refs) (d : Meta) (cs : list IncomingMessage) :
  Forall (fun m => is_chunk m = true) cs ->
  downloads (snd (handle_all r (meta d :: cs ++ [eof])))
    = [(name d, mime d, List.concat (pieces cs))] /\
  receiveBuffers (fst (handle_all r (meta d :: cs ++ [eof]))) = pieces cs /\
  receivedBytes (fst (handle_all r (meta d :: cs ++ [eof])))
    = byteLength (List.concat (pieces cs)) /\
  sends (snd (handle_all r (meta d :: cs ++ [eof])))
    = ack (-1) :: acks_for cs.
Proof.
  intros C.
  change (meta d :: cs ++ [eof]) with ((meta d :: cs) ++ [eof]).
  rewrite handle_all_snoc. simpl.
  match goal with |- context [handle_all ?x cs] => set (r1 := x) end.
  destruct (handle_chunks_refs C r1) as (B & M & D).
  assert (K : counted (fst (handle_all r1 cs))).
  { clear B M D. assert (K1 : counted r1) by reflexivity.
    revert K1. generalize r1. clear r1.
    induction cs as [| m l IH]; intros r1 K1; simpl; [exact K1 |].
    inversion C; subst.
    assert (C1 := onData_counts m K1).
    destruct (onData r1 m) as [r2 es2].
    specialize (IH ltac:(assumption) r2 C1).
    destruct (handle_all r2 l). exact IH. }
  assert (A : sends (snd (handle_all r1 cs)) = acks_for cs).
  { apply handle_all_acks. }
  destruct (handle_all r1 cs) as [r2 es2]. simpl in *.
  rewrite M. simpl. unfold counted in K. rewrite K, B. simpl.
  rewrite downloads_app, D, sends_app, A. simpl. rewrite app_nil_r.
  repeat split.
Qed.

(** X4.  However many bytes arrive, the handler reports only integers of
    0..100, as long as every descriptor announces a positive size: the
    report is clamped when more bytes arrive than were announced. *)
Theorem X4_reports_are_percentages (msgs : list IncomingMessage) :
  (forall m, In (meta m) msgs -> 0 < size m) ->
  Forall is_percentage (recv_progress (snd (handle_all initial_refs msgs))).
Proof.
  intros H.
  assert (G : forall r,
             (forall m, metaRef r = Some m -> 0 < size m) ->
             Forall is_percentage (recv_progress (snd (handle_all r msgs)))).
  { induction msgs as [| msg msgs IH]; intros r Hr; simpl; [constructor |].
    assert (H' : forall m, In (meta m) msgs -> 0 < size m).
    { intros m I. apply H. right. exact I. }
    specialize (IH H').
    destruct msg as [m | i p | | i]; simpl.
    - match goal with |- context [handle_all ?x msgs] => specialize (IH x) end.
      destruct (handle_all _ msgs) as [r2 es2]. simpl in *.
      constructor; [simpl; lia |]. apply IH.
      intros m' E. injection E as <-. apply H. left. reflexivity.
    - match goal with |- context [handle_all ?x msgs] => specialize (IH x) end.
      destruct (handle_all _ msgs) as [r2 es2]. simpl in *.
      rewrite recv_progress_app. apply Forall_app. split; [| apply IH, Hr].
      destruct (metaRef r) as [m |] eqn:E; simpl; [| constructor].
      constructor; [| constructor]. apply percent_is_percentage, Hr. reflexivity.
    - specialize (IH r Hr). destruct (metaRef r) as [m |];
        destruct (handle_all r msgs) as [r2 es2]; simpl in *;
        [constructor; [simpl; lia | exact IH] | exact IH].
    - match goal with |- context [handle_all ?x msgs] => specialize (IH x) end.
      destruct (handle_all _ msgs) as [r2 es2]. simpl in *. apply IH, Hr. }
  apply G. intros m E. discriminate E.
Qed.

(** More bytes than announced, and a second end marker. *)
Lemma X4_reports_are_percentages_witness :
  recv_progress
    (snd (handle_all initial_refs
            [meta (mkMeta "a" 1 "b" 16384);
             chunk 0 [x61; x62; x63]%byte; eof; eof]))
  = [JS.Int 0; JS.Int 100; JS.Int 100; JS.Int 100] /\
  Forall is_percentage
    (recv_progress
       (snd (handle_all initial_refs
               [meta (mkMeta "a" 1 "b" 16384);
                chunk 0 [x61; x62; x63]%byte; eof; eof]))).
Proof.
  split; [vm_compute; reflexivity |].
  apply X4_reports_are_percentages.
  intros m [E | [E | [E | [E | []]]]]; try discriminate E.
  injection E as <-. reflexivity.
Defined.

(* ================================================================== *)
(** * The acknowledgements of a transfer *)

Section Acknowledgements.

Variable chunk_size : N.
Variable file : File.
Variable conn : DataConnection.

Local Abbreviation reachable := (reachable chunk_size file conn).
Local Abbreviation step := (step chunk_size file conn).
Local Abbreviation d := (descriptor chunk_size file).
Local Abbreviation first_pieces' := (first_pieces chunk_size file).

(** Every acknowledgement that has come back or is on its way answers a
    message delivered to the receiver, in order. *)
Lemma reachable_acks w :
  reachable w -> sender_inbox w ++ to_sender w = acks_for (receiver_inbox w).
Proof.
  induction 1 as [| w w' R IH [e F]]; [reflexivity |].
  destruct e; simpl in F.
  - destruct (sendFile chunk_size file conn (pipeline w) (sender_refs w))
      as [[[p r] es] |]; [| discriminate].
    injection F as <-. exact IH.
  - destruct (open w); [| discriminate].
    destruct (to_receiver w) as [| msg q]; [discriminate |].
    assert (A := onData_acks (receiver_refs w) msg).
    destruct (onData (receiver_refs w) msg) as [r es]. injection F as <-.
    simpl in *. rewrite acks_for_app, app_assoc, IH, A. reflexivity.
  - destruct (open w); [| discriminate].
    destruct (to_sender w) as [| msg q]; [discriminate |].
    destruct (onData (sender_refs w) msg) as [r es]. injection F as <-.
    simpl. rewrite <- app_assoc. exact IH.
  - destruct (open w); [| discriminate]. injection F as <-. exact IH.
Qed.

Lemma acks_for_pieces k :
  acks_for (first_pieces' k) = map (fun i => ack (Z.of_nat i)) (seq 0 k).
Proof.
  induction k as [| k IH]; [reflexivity |].
  rewrite first_pieces_snoc, acks_for_app, IH, seq_S, map_app. simpl.
  rewrite nat_N_Z. reflexivity.
Qed.

Lemma length_acks_for_le msgs : (List.length (acks_for msgs) <= List.length msgs)%nat.
Proof.
  induction msgs as [| m msgs IH]; [simpl; lia |].
  change (m :: msgs) with ([m] ++ msgs).
  rewrite acks_for_app, !length_app. destruct m; simpl; lia.
Qed.

Lemma filter_acks_only l : acks_only l -> filter is_ack l = l.
Proof.
  induction 1 as [| m l Hm _ IH]; [reflexivity |].
  simpl. rewrite Hm, IH. reflexivity.
Qed.

(** The acknowledgements delivered are no more than those that what has
    been sent calls for. *)
Lemma acknowledged_le w :
  reachable w ->
  acknowledged w = sender_inbox w /\
  (List.length (sender_inbox w) + List.length (to_sender w)
     + List.length (acks_for (to_receiver w))
   <= List.length (acks_for (sent w)))%nat /\
  (open w = true ->
   (List.length (sender_inbox w) + List.length (to_sender w)
      + List.length (acks_for (to_receiver w))
    = List.length (acks_for (sent w)))%nat).
Proof.
  intros R. destruct (reachable_invariant R) as [_ (_ & B & (dropped & S & D) & _)].
  assert (A := reachable_acks R).
  split; [apply filter_acks_only, B |].
  rewrite S, !acks_for_app, !length_app, <- A, length_app.
  split; [lia |]. intros O. rewrite (D O). simpl. lia.
Qed.

(** X5.  The acknowledgements come back in the order of the messages they
    answer: index -1 for the descriptor, then 0, 1, 2, ... one for each piece
    delivered to the receiver, and none for the end marker. *)
Theorem X5_acks_in_order w :
  reachable w ->
  sender_inbox w ++ to_sender w =
    match receiver_inbox w with
    | [] => []
    | _ => ack (-1) :: map (fun i => ack (Z.of_nat i))
                           (seq 0 (List.length (pieces (receiver_inbox w))))
    end.
Proof.
  intros R. rewrite (reachable_acks R).
  destruct (inbox_shape R) as [E | [(j & E & _) | (k & E & _)]]; rewrite E.
  - reflexivity.
  - change (meta d :: first_pieces' j) with ([meta d] ++ first_pieces' j).
    rewrite acks_for_app, pieces_app, acks_for_pieces. simpl.
    rewrite length_first_pieces. reflexivity.
  - change (meta d :: first_pieces' k ++ [eof])
      with ([meta d] ++ first_pieces' k ++ [eof]).
    rewrite !acks_for_app, !pieces_app, acks_for_pieces. simpl.
    rewrite !app_nil_r, length_first_pieces. reflexivity.
Qed.

(** X6.  Sent minus acknowledged is never negative and never more than
    two. *)
Theorem X6_outstanding_bounds w :
  reachable w -> (0 <= outstanding w <= 2)%Z.
Proof.
  intros R. destruct (reachable_window R) as [_ K].
  destruct (acknowledged_le R) as (E & L & _).
  assert (M := length_acks_for_le (sent w)).
  unfold outstanding. rewrite E.
  destruct (busyRef (sender_refs w)); lia.
Qed.

(** X7.  The end marker is never acknowledged: once [sendFile] has returned
    one message at least stays unacknowledged for ever, and exactly one when
    the channel has delivered everything. *)
Theorem X7_eof_unacknowledged w :
  reachable w -> pipeline w = Returned ->
  (1 <= outstanding w)%Z /\
  (open w = true -> to_receiver w = [] -> to_sender w = [] ->
   outstanding w = 1%Z).
Proof.
  intros R P. destruct (acknowledged_le R) as (E & L & Q).
  destruct (sent_shape R) as [S | (k & tail & S & _ & [[_ T] | (-> & _ & _)])].
  - destruct (reachable_invariant R) as [I _]. unfold sender_invariant in I.
    rewrite P in I. destruct I as (? & msgs & ? & _ & _ & I & _).
    rewrite S in I. destruct msgs; discriminate.
  - contradiction.
  - assert (A : List.length (acks_for (sent w)) = Datatypes.S k).
    { rewrite S.
      change (meta d :: first_pieces' k ++ [eof])
        with ([meta d] ++ first_pieces' k ++ [eof]).
      rewrite !acks_for_app, acks_for_pieces, !length_app, length_map, length_seq.
      simpl. lia. }
    assert (N : List.length (sent w) = Datatypes.S (Datatypes.S k)).
    { rewrite S. simpl. rewrite length_app. unfold first_pieces.
      rewrite length_map, length_seq. simpl. lia. }
    unfold outstanding. rewrite E. split; [lia |].
    intros O Tr Ts. specialize (Q O). rewrite Tr, Ts in Q. simpl in Q. lia.
Qed.

End Acknowledgements.

(* ================================================================== *)
(** * The messages and the reports of a transfer, in every state *)

Section Everywhere.

Variable chunk_size : N.
Variable file : File.
Variable conn : DataConnection.

Local Abbreviation reachable := (reachable chunk_size file conn).
Local Abbreviation d := (descriptor chunk_size file).
Local Abbreviation first_pieces' := (first_pieces chunk_size file).
Local Abbreviation report' := (report chunk_size file).

Lemma first_pieces_split k n :
  (k <= n)%nat ->
  first_pieces' n =
    first_pieces' k ++ map (fun i => piece chunk_size file (N.of_nat i)) (seq k (n - k)).
Proof.
  intros L. unfold first_pieces.
  replace n with (k + (n - k))%nat at 1 by lia.
  rewrite seq_app, map_app. reflexivity.
Qed.

Lemma index_le_ceiling k :
  0 < chunk_size ->
  k = 0%nat \/ (N.of_nat k - 1) * chunk_size < file_size file ->
  (k <= N.to_nat (ceiling_quotient (file_size file) chunk_size))%nat.
Proof.
  intros P [-> | B]; [lia |].
  destruct (Nat.eq_dec k 0) as [-> | Z]; [lia |].
  assert (N.of_nat k <= ceiling_quotient (file_size file) chunk_size); [| lia].
  unfold ceiling_quotient. apply N.div_le_lower_bound; [lia |].
  replace (N.of_nat k) with (N.of_nat k - 1 + 1) by lia.
  rewrite N.mul_add_distr_l. lia.
Qed.

(** The sender's side in a reachable state: what it has sent and what it
    has reported. *)
Lemma sender_views w :
  reachable w ->
  (sent w = [] /\ send_progress (sender_log w) = []) \/
  exists k tail final,
    sent w = meta d :: first_pieces' k ++ tail /\
    send_progress (sender_log w) = JS.Int 0 :: map report' (seq 0 k) ++ final /\
    (k = 0%nat \/ (N.of_nat k - 1) * chunk_size < file_size file) /\
    ((tail = [] /\ final = [] /\ pipeline w <> Returned) \/
     (tail = [eof] /\ final = [JS.Int 100] /\ pipeline w = Returned /\
      file_size file <= N.of_nat k * chunk_size)).
Proof.
  intros R. destruct (reachable_invariant R) as [S _].
  unfold sender_invariant in S.
  assert (A : forall index,
             at_index chunk_size file index (sent w) (send_progress (sender_log w)) ->
             pipeline w <> Returned ->
             exists k tail final,
               sent w = meta d :: first_pieces' k ++ tail /\
               send_progress (sender_log w)
                 = JS.Int 0 :: map report' (seq 0 k) ++ final /\
               (k = 0%nat \/ (N.of_nat k - 1) * chunk_size < file_size file) /\
               ((tail = [] /\ final = [] /\ pipeline w <> Returned) \/
                (tail = [eof] /\ final = [JS.Int 100] /\ pipeline w = Returned /\
                 file_size file <= N.of_nat k * chunk_size))).
  { intros index (M & Rp & B) NR.
    exists (N.to_nat index), [], []. rewrite !app_nil_r, N2Nat.id.
    split; [exact M |]. split; [exact Rp |]. split; [| left; auto].
    destruct B as [-> | B]; [left; reflexivity | right; exact B]. }
  destruct (pipeline w) as [| offset index | offset index [buf |] |] eqn:P.
  - left. exact S.
  - right. destruct S as [_ S]. apply (A _ S). discriminate.
  - right. destruct S as (_ & S & _). apply (A _ S). discriminate.
  - right. destruct S as (_ & S & _). apply (A _ S). discriminate.
  - right. destruct S as (index & msgs & reports & (M & Rp & B) & U & S & Sp).
    exists (N.to_nat index), [eof], [JS.Int 100]. rewrite N2Nat.id, S, Sp, M, Rp.
    split; [reflexivity |]. split; [reflexivity |]. split; [| right; auto].
    destruct B as [-> | B]; [left; reflexivity | right; exact B].
Qed.

(** X8.  In every state what the sender has sent is an initial part of one
    fixed sequence: the descriptor, the pieces 0, 1, 2, ... each with its
    slice of the file, the end marker; and it is the whole sequence exactly
    when [sendFile] has returned. *)
Theorem X8_sent_is_a_prefix w :
  0 < chunk_size -> reachable w ->
  exists rest,
    sent w ++ rest = whole_transfer chunk_size file /\
    (pipeline w = Returned <-> rest = []).
Proof.
  intros P R. unfold whole_transfer.
  destruct (sender_views R)
    as [[S _] | (k & tail & final & S & _ & B & [(-> & _ & NR) | (-> & _ & Ret & U)])].
  - rewrite S. eexists. split; [reflexivity |]. split; [| discriminate].
    intros Ret. destruct (reachable_invariant R) as [I _].
    unfold sender_invariant in I. rewrite Ret in I.
    destruct I as (? & msgs & ? & _ & _ & I & _).
    rewrite S in I. destruct msgs; discriminate.
  - rewrite S, app_nil_r.
    rewrite (first_pieces_split (index_le_ceiling P B)).
    eexists. split; [simpl; rewrite <- app_assoc; reflexivity |].
    split; [contradiction |].
    intros E. apply app_eq_nil in E. destruct E as [_ E]. discriminate E.
  - rewrite S. exists []. rewrite app_nil_r.
    rewrite <- (@exit_index chunk_size file (N.of_nat k) P U), Nat2N.id.
    + split; [reflexivity | split; auto].
    + destruct B as [-> | B]; [left; reflexivity | right; exact B].
Qed.

Lemma length_slice a :
  byteLength (slice file a (a + chunk_size)) = N.min chunk_size (file_size file - a).
Proof.
  unfold byteLength, slice, file_size, byteLength.
  rewrite length_firstn, length_skipn. lia.
Qed.

(** X9.  Every piece sent carries [min(P, S - i * P)] bytes, [i] its index:
    a full piece or, for the last one, the rest of the file; no piece is
    empty. *)
Theorem X9_piece_sizes w i :
  0 < chunk_size -> reachable w ->
  (i < List.length (pieces (sent w)))%nat ->
  byteLength (nth i (pieces (sent w)) [])
    = N.min chunk_size (file_size file - N.of_nat i * chunk_size) /\
  1 <= byteLength (nth i (pieces (sent w)) []).
Proof.
  intros P R L.
  destruct (sender_views R) as [[S _] | (k & tail & final & S & _ & B & T)].
  - rewrite S in L. simpl in L. lia.
  - assert (E : pieces (sent w) = pieces (first_pieces' k)).
    { rewrite S. change (meta d :: first_pieces' k ++ tail)
        with ([meta d] ++ first_pieces' k ++ tail).
      rewrite !pieces_app. simpl.
      destruct T as [(-> & _) | (-> & _)]; simpl; apply app_nil_r. }
    rewrite E in *. rewrite length_first_pieces in L.
    rewrite nth_first_pieces by exact L. rewrite length_slice.
    split; [reflexivity |].
    destruct B as [-> | B]; [lia |].
    assert (N.of_nat i * chunk_size <= (N.of_nat k - 1) * chunk_size).
    { apply N.mul_le_mono_r. lia. }
    lia.
Qed.

End Everywhere.

(* ================================================================== *)
(** * The two progress bars *)

Section Bars.

Variable chunk_size : N.
Variable file : File.
Variable conn : DataConnection.

Local Abbreviation reachable := (reachable chunk_size file conn).
Local Abbreviation d := (descriptor chunk_size file).
Local Abbreviation first_pieces' := (first_pieces chunk_size file).
Local Abbreviation report' := (report chunk_size file).

Lemma last_in (A : Type) (l : list A) (x y : A) : In (last (x :: l) y) (x :: l).
Proof.
  revert x. induction l as [| z l IH]; intros x; [left; reflexivity |].
  right. apply (IH z).
Qed.

(** The receiving peer after the descriptor and the first [j] pieces: its
    reports are those of the sender. *)
Lemma handle_pieces_reports j :
  j = 0%nat \/ (N.of_nat j - 1) * chunk_size < file_size file ->
  receivedBytes (fst (handle_all initial_refs (meta d :: first_pieces' j)))
    = N.min (N.of_nat j * chunk_size) (file_size file) /\
  metaRef (fst (handle_all initial_refs (meta d :: first_pieces' j))) = Some d /\
  receiveBuffers (fst (handle_all initial_refs (meta d :: first_pieces' j)))
    = pieces (first_pieces' j) /\
  recv_progress (snd (handle_all initial_refs (meta d :: first_pieces' j)))
    = JS.Int 0 :: map report' (seq 0 j).
Proof.
  induction j as [| j IH]; intros B.
  - simpl. repeat split. lia.
  - assert (L : N.of_nat j * chunk_size < file_size file).
    { destruct B as [B | B]; [discriminate |].
      replace (N.of_nat (S j) - 1) with (N.of_nat j) in B by lia. exact B. }
    assert (Bj : j = 0%nat \/ (N.of_nat j - 1) * chunk_size < file_size file).
    { destruct (Nat.eq_dec j 0) as [-> | Z]; [left; reflexivity | right].
      apply N.le_lt_trans with (2 := L). apply N.mul_le_mono_r. lia. }
    destruct (IH Bj) as (Rb & M & Bf & Pr). clear IH.
    assert (Rep : report' j
                  = JS.percent (N.min (N.of_nat j * chunk_size + chunk_size)
                                      (file_size file)) (file_size file)).
    { unfold report.
      replace (N.of_nat (S j) * chunk_size)
        with (N.of_nat j * chunk_size + chunk_size) by lia.
      destruct (N.le_gt_cases (N.of_nat j * chunk_size + chunk_size)
                              (file_size file)) as [C | C].
      - rewrite N.min_l by exact C. reflexivity.
      - rewrite N.min_r by lia.
        assert (S0 : 0 < file_size file) by lia.
        rewrite (PercentFacts.percent_full S0 (N.le_refl _)).
        rewrite (PercentFacts.percent_full S0); [reflexivity | lia]. }
    replace (N.of_nat (S j) * chunk_size)
      with (N.of_nat j * chunk_size + chunk_size) by lia.
    rewrite first_pieces_snoc, seq_S, map_app.
    change (map report' [(0 + j)%nat]) with [report' j]. rewrite Rep.
    change (meta d :: first_pieces' j ++ [piece chunk_size file (N.of_nat j)])
      with ((meta d :: first_pieces' j) ++ [piece chunk_size file (N.of_nat j)]).
    rewrite handle_all_snoc.
    destruct (handle_all initial_refs (meta d :: first_pieces' j)) as [r es].
    simpl in Rb, M, Bf, Pr.
    remember (N.of_nat j * chunk_size) as off eqn:Eo.
    unfold piece. rewrite <- Eo. simpl. rewrite M. simpl.
    rewrite recv_progress_app, Pr, Rb, Bf, pieces_app, length_slice.
    simpl.
    replace (N.min off (file_size file) + N.min chunk_size (file_size file - off))
      with (N.min (off + chunk_size) (file_size file)) by lia.
    repeat split.
Qed.

(** The two peers side by side, in a reachable state. *)
Lemma both_views w :
  reachable w ->
  receiver_inbox w = [] \/
  exists k tail final,
    sent w = meta d :: first_pieces' k ++ tail /\
    send_progress (sender_log w) = JS.Int 0 :: map report' (seq 0 k) ++ final /\
    (k = 0%nat \/ (N.of_nat k - 1) * chunk_size < file_size file) /\
    ((exists j, (j <= k)%nat /\ receiver_inbox w = meta d :: first_pieces' j) \/
     (tail = [eof] /\ final = [JS.Int 100] /\
      file_size file <= N.of_nat k * chunk_size /\
      receiver_inbox w = meta d :: first_pieces' k ++ [eof])).
Proof.
  intros R.
  destruct (reachable_invariant R) as [_ (_ & _ & (dropped & S & _) & _)].
  destruct (sender_views R) as [[E _] | (k & tail & final & E & Sp & B & T)].
  - rewrite E in S. symmetry in S. apply app_eq_nil in S. left. apply S.
  - rewrite E in S. symmetry in S.
    assert (T' : tail = [] \/ tail = [eof]).
    { destruct T as [(-> & _) | (-> & _)]; auto. }
    destruct (prefix_of_wire _ _ _ _ _ S T') as [L | [(j & J & L) | (Te & L)]].
    + left. exact L.
    + right. exists k, tail, final. repeat split; try assumption.
      left. exists j. auto.
    + right. exists k, tail, final. repeat split; try assumption.
      right. destruct T as [(-> & _) | (_ & -> & _ & U)]; [discriminate |]. auto.
Qed.

Lemma bound_below j k :
  (j <= k)%nat ->
  k = 0%nat \/ (N.of_nat k - 1) * chunk_size < file_size file ->
  j = 0%nat \/ (N.of_nat j - 1) * chunk_size < file_size file.
Proof.
  intros J [-> | B]; [left; lia | right].
  apply N.le_lt_trans with (2 := B). apply N.mul_le_mono_r. lia.
Qed.

(** X10.  The receiver reports the very values the sender reports, in the
    same order, never more of them than the sender has; when the end marker
    has been delivered both have reported the same sequence. *)
Theorem X10_bars_agree w :
  reachable w ->
  exists rest,
    send_progress (sender_log w) = recv_progress (receiver_log w) ++ rest /\
    (In eof (receiver_inbox w) -> rest = []).
Proof.
  intros R. destruct (receiver_log_views R) as [V _]. rewrite V.
  destruct (both_views R)
    as [E | (k & tail & final & S & Sp & B & [(j & J & E) | (-> & -> & U & E)])];
    rewrite E.
  - exists (send_progress (sender_log w)). split; [reflexivity |].
    intros []. 
  - destruct (handle_pieces_reports (bound_below J B)) as (_ & _ & _ & Pr).
    rewrite Pr, Sp.
    exists (map report' (seq j (k - j)) ++ final). split.
    + replace k with (j + (k - j))%nat at 1 by lia.
      rewrite seq_app, map_app. simpl. rewrite <- app_assoc. reflexivity.
    + intros I. apply eof_not_in_pieces in I. contradiction.
  - destruct (handle_pieces_reports B) as (_ & M & _ & Pr).
    change (meta d :: first_pieces' k ++ [eof])
      with ((meta d :: first_pieces' k) ++ [eof]).
    rewrite handle_all_snoc.
    destruct (handle_all initial_refs (meta d :: first_pieces' k)) as [r es].
    simpl in M, Pr. simpl. rewrite M. simpl.
    rewrite recv_progress_app, Pr, Sp. simpl.
    exists []. rewrite app_nil_r. auto.
Qed.

(** X11.  For a file of 1 to 2^53 - 1 bytes, the receiver has reported 100
    exactly when the buffers it has stored make up the whole file. *)
Theorem X11_full_bar_iff_complete w :
  0 < file_size file -> file_size file < 2 ^ 53 -> reachable w ->
  (In (JS.Int 100) (recv_progress (receiver_log w)) <->
   List.concat (receiveBuffers (receiver_refs w)) = file_bytes file).
Proof.
  intros S0 S53 R.
  destruct (receiver_log_views R) as [V _]. rewrite V.
  destruct (reachable_invariant R) as [_ (_ & _ & _ & Rr & _)]. rewrite Rr.
  destruct (both_views R)
    as [E | (k & tail & final & _ & Sp & B & [(j & J & E) | (-> & -> & U & E)])];
    rewrite E.
  - simpl. split; [intros [] |]. intros C.
    unfold file_size, byteLength in S0. rewrite <- C in S0. simpl in S0. lia.
  - destruct (handle_pieces_reports (bound_below J B)) as (_ & _ & Bf & Pr).
    rewrite Pr, Bf, concat_first_pieces.
    assert (Q : N.of_nat j * chunk_size >= file_size file <->
                firstn (N.to_nat (N.of_nat j * chunk_size)) (file_bytes file)
                  = file_bytes file).
    { split.
      - intros G. apply firstn_all2. unfold file_size, byteLength in G. lia.
      - intros C. assert (L := f_equal (@List.length byte) C).
        rewrite length_firstn in L. unfold file_size, byteLength. lia. }
    rewrite <- Q. split.
    + intros [X | I]; [discriminate X |].
      apply in_map_iff in I. destruct I as (i & Ei & Ii).
      apply in_seq in Ii. unfold report in Ei.
      apply (@PercentFacts.percent_ge_of_100 _ _ S0 S53) in Ei.
      assert (N.of_nat (Datatypes.S i) * chunk_size <= N.of_nat j * chunk_size).
      { apply N.mul_le_mono_r. lia. }
      lia.
    + intros G. right. destruct j as [| j]; [simpl in G; lia |].
      apply in_map_iff. exists j. split; [| apply in_seq; lia].
      unfold report. apply PercentFacts.percent_full; [exact S0 | lia].
  - destruct (@handle_whole_transfer d (first_pieces' k)
                (first_pieces_chunks chunk_size file k) (or_intror S0))
      as (Bf & _ & _ & _ & L).
    rewrite Bf. split; [intros _; apply whole_file, U |].
    intros _.
    match goal with
    | H : last ?l _ = JS.Int 100 |- In _ ?l =>
        destruct l as [| p l']; [discriminate H |];
        rewrite <- H; apply last_in
    end.
Qed.

End Bars.

(* ================================================================== *)
(** * A transfer never gets stuck *)

Section NeverStuck.

Variable chunk_size : N.
Variable file : File.
Variable conn : DataConnection.

Local Abbreviation reachable := (reachable chunk_size file conn).
Local Abbreviation step := (step chunk_size file conn).
Local Abbreviation steps := (steps chunk_size file conn).
Local Abbreviation fire := (fire chunk_size file conn).
Local Abbreviation run := (run chunk_size file conn).
Local Abbreviation quiet' := (quiet chunk_size).

Lemma reachable_awaited w : reachable w -> awaited w.
Proof.
  induction 1 as [| w w' R IH [e F]]; [intros B; discriminate B |].
  destruct (reachable_window R) as [W _].
  destruct (acknowledged_le R) as (_ & L & _).
  destruct (reachable_invariant R) as [_ (A & _)].
  unfold awaited, sent in *. destruct e; simpl in F.
  - destruct (pipeline w) as [| offset index | offset index [buf |] |] eqn:P;
      simpl in F.
    + injection F as <-. simpl. intros B. rewrite (W eq_refl) in B. discriminate B.
    + destruct (offset <? file_size file); injection F as <-; simpl;
        rewrite app_nil_r; intros B _; (apply IH; [exact B | discriminate]).
    + destruct (busyRef (sender_refs w)); [discriminate |]. injection F as <-.
      simpl. intros _ _. rewrite sends_app, acks_for_app, length_app. simpl. lia.
    + destruct (busyRef (sender_refs w)); [discriminate |]. injection F as <-.
      simpl. intros _ C. congruence.
    + discriminate.
  - destruct (open w); [| discriminate].
    destruct (to_receiver w) as [| msg q]; [discriminate |].
    destruct (onData (receiver_refs w) msg). injection F as <-. simpl. exact IH.
  - destruct (open w); [| discriminate].
    destruct (to_sender w) as [| msg q] eqn:Q; [discriminate |].
    inversion A as [| ? ? Hm _]; subst.
    destruct msg; try discriminate. simpl in F. injection F as <-. simpl.
    intros B. discriminate B.
  - destruct (open w); [| discriminate]. injection F as <-. simpl.
    rewrite sends_app. simpl. rewrite app_nil_r. exact IH.
Qed.

(** X12.  With the connection open, the two peers have nothing left to do
    but to close exactly when [sendFile] has returned and the channel is
    empty: before that, the pipeline can be resumed or a message
    delivered. *)
Theorem X12_stops_only_when_done w :
  reachable w -> open w = true ->
  ((forall e, e <> Close -> fire w e = None) <->
   (pipeline w = Returned /\ drained w)).
Proof.
  intros R O. split.
  - intros H.
    assert (Tr : to_receiver w = []).
    { specialize (H ReceiverData ltac:(discriminate)). simpl in H.
      rewrite O in H. destruct (to_receiver w); [reflexivity |].
      destruct (onData (receiver_refs w) i). discriminate H. }
    assert (Ts : to_sender w = []).
    { specialize (H SenderData ltac:(discriminate)). simpl in H.
      rewrite O in H. destruct (to_sender w); [reflexivity |].
      destruct (onData (sender_refs w) i). discriminate H. }
    split; [| split; assumption].
    specialize (H Resume ltac:(discriminate)). simpl in H.
    destruct (pipeline w) as [| offset index | offset index pending |] eqn:P;
      simpl in H.
    + discriminate H.
    + destruct (offset <? file_size file); discriminate H.
    + destruct (busyRef (sender_refs w)) eqn:B;
        [| destruct pending; discriminate H].
      exfalso. assert (Aw := reachable_awaited R).
      destruct (acknowledged_le R) as (_ & _ & Q).
      specialize (Q O). rewrite Tr, Ts in Q. simpl in Q.
      unfold awaited in Aw. rewrite P in Aw.
      specialize (Aw B ltac:(discriminate)). lia.
    + reflexivity.
  - intros (P & Tr & Ts) e NE. destruct e; simpl; [| | | congruence].
    + rewrite P. reflexivity.
    + rewrite Tr. destruct (open w); reflexivity.
    + rewrite Ts. destruct (open w); reflexivity.
Qed.

(** Delivering everything that is in the channel. *)
Lemma deliver_to_receiver n : forall w,
  reachable w -> open w = true -> List.length (to_receiver w) = n ->
  exists w', steps w w' /\ open w' = true /\ to_receiver w' = [] /\
             pipeline w' = pipeline w.
Proof.
  induction n as [| n IH]; intros w R O L.
  - exists w. repeat split; [constructor | exact O |].
    destruct (to_receiver w); [reflexivity | discriminate].
  - destruct (to_receiver w) as [| msg q] eqn:Q; [discriminate |].
    destruct (fire w ReceiverData) as [w1 |] eqn:F.
    2:{ simpl in F. rewrite O, Q in F.
        destruct (onData (receiver_refs w) msg). discriminate F. }
    assert (St : step w w1) by (exists ReceiverData; exact F).
    assert (X : open w1 = true /\ to_receiver w1 = q /\ pipeline w1 = pipeline w).
    { simpl in F. rewrite O, Q in F.
      destruct (onData (receiver_refs w) msg). injection F as <-. auto. }
    destruct X as (O1 & Q1 & P1).
    destruct (IH w1 (reachable_step R St) O1) as (w' & S' & O' & T' & P').
    { rewrite Q1. simpl in L. lia. }
    exists w'. repeat split; try assumption; [| congruence].
    clear - St S'. induction S' as [| wa wb _ IH2 Sb].
    + apply steps_step with w; [constructor | exact St].
    + apply steps_step with wa; assumption.
Qed.

Lemma deliver_to_sender n : forall w,
  reachable w -> open w = true -> to_receiver w = [] ->
  List.length (to_sender w) = n ->
  exists w', steps w w' /\ open w' = true /\ drained w' /\
             pipeline w' = pipeline w.
Proof.
  induction n as [| n IH]; intros w R O T L.
  - exists w. repeat split; [constructor | exact O | exact T |].
    destruct (to_sender w); [reflexivity | discriminate].
  - destruct (to_sender w) as [| msg q] eqn:Q; [discriminate |].
    destruct (reachable_invariant R) as [_ (A & _)]. rewrite Q in A.
    inversion A as [| ? ? Hm _]; subst.
    destruct (fire w SenderData) as [w1 |] eqn:F.
    2:{ simpl in F. rewrite O, Q in F.
        destruct (onData (sender_refs w) msg). discriminate F. }
    assert (St : step w w1) by (exists SenderData; exact F).
    assert (X : open w1 = true /\ to_sender w1 = q /\ to_receiver w1 = [] /\
                pipeline w1 = pipeline w).
    { simpl in F. rewrite O, Q in F. destruct msg; try discriminate Hm.
      simpl in F. injection F as <-. simpl. rewrite T. auto. }
    destruct X as (O1 & Q1 & T1 & P1).
    destruct (IH w1 (reachable_step R St) O1 T1) as (w' & S' & O' & D' & P').
    { rewrite Q1. simpl in L. lia. }
    exists w'. repeat split; try apply D'; try assumption; [| congruence].
    clear - St S'. induction S' as [| wa wb _ IH2 Sb].
    + apply steps_step with w; [constructor | exact St].
    + apply steps_step with wa; assumption.
Qed.

Lemma steps_append w1 w2 w3 : steps w1 w2 -> steps w2 w3 -> steps w1 w3.
Proof.
  intros A B. induction B as [| w w' _ IH St]; [exact A |].
  apply steps_step with w; assumption.
Qed.

Lemma settle w :
  reachable w -> open w = true ->
  exists w', steps w w' /\ reachable w' /\ open w' = true /\ drained w' /\
             pipeline w' = pipeline w /\
             (busyRef (sender_refs w') = false \/ pipeline w' = Returned).
Proof.
  intros R O.
  destruct (@deliver_to_receiver _ w R O eq_refl) as (w1 & S1 & O1 & T1 & P1).
  assert (R1 := reachable_steps R S1).
  destruct (@deliver_to_sender _ w1 R1 O1 T1 eq_refl) as (w2 & S2 & O2 & D2 & P2).
  assert (R2 := reachable_steps R1 S2).
  exists w2. split; [apply steps_append with w1; assumption |].
  repeat split; try apply D2; try assumption; [congruence |].
  destruct (busyRef (sender_refs w2)) eqn:B; [| left; reflexivity].
  destruct (pipeline w2) eqn:P; try (right; reflexivity); exfalso;
    assert (Aw := reachable_awaited R2);
    destruct (acknowledged_le R2) as (_ & _ & Q);
    specialize (Q O2); destruct D2 as [Tr Ts]; rewrite Tr, Ts in Q; simpl in Q;
    unfold awaited in Aw; rewrite P in Aw;
    specialize (Aw B ltac:(discriminate)); lia.
Qed.

Hypothesis positive : 0 < chunk_size.

Lemma completion_steps n : forall index w,
  quiet' index w ->
  (N.to_nat (file_size file - index * chunk_size) <= n)%nat ->
  exists w', steps w w' /\ pipeline w' = Returned /\ In eof (receiver_inbox w').
Proof.
  induction n as [| n IH]; intros index w Q M.
  - destruct (@quiet_finish chunk_size file conn index w Q) as (w' & E & P & I);
      [lia |].
    exists w'. split; [exact (@run_steps _ _ _ _ _ _ E) | auto].
  - destruct (N.lt_ge_cases (index * chunk_size) (file_size file)) as [L | L].
    + destruct (@quiet_round chunk_size file conn positive index w Q L) as (w1 & E & Q1).
      destruct (IH (index + 1) w1 Q1) as (w' & S' & P' & I'); [lia |].
      exists w'. split; [| auto].
      apply steps_append with w1; [exact (@run_steps _ _ _ _ _ _ E) | exact S'].
    + destruct (@quiet_finish chunk_size file conn index w Q L) as (w' & E & P & I).
      exists w'. split; [exact (@run_steps _ _ _ _ _ _ E) | auto].
Qed.

(** From a state with an empty channel and the pipeline at the head of its
    loop, or returned. *)
Lemma finish_from_loop w :
  reachable w -> open w = true -> drained w ->
  busyRef (sender_refs w) = false \/ pipeline w = Returned ->
  (exists offset index, pipeline w = LoopTest offset index) \/ pipeline w = Returned ->
  exists w', steps w w' /\ pipeline w' = Returned /\ In eof (receiver_inbox w').
Proof.
  intros R O [Tr Ts] B [(offset & index & P) | P].
  - destruct B as [B | B]; [| congruence].
    destruct (reachable_invariant R) as [S _]. unfold sender_invariant in S.
    rewrite P in S. destruct S as [-> _].
    apply (@completion_steps (N.to_nat (file_size file - index * chunk_size)) index w);
      [| apply Nat.le_refl].
    repeat split; assumption.
  - exists w. split; [constructor |]. split; [exact P |].
    destruct (reachable_invariant R) as [_ (_ & _ & (dropped & S & D) & _)].
    rewrite (D O), Tr, !app_nil_r in S. rewrite <- S.
    destruct (sender_views R) as [[E _] | (k & tail & final & E & _ & _ & T)].
    + destruct (reachable_invariant R) as [I _]. unfold sender_invariant in I.
      rewrite P in I. destruct I as (? & msgs & ? & _ & _ & I & _).
      rewrite E in I. destruct msgs; discriminate.
    + destruct T as [(_ & _ & NR) | (-> & _)]; [contradiction |].
      rewrite E. right. apply in_or_app. right. left. reflexivity.
Qed.

(** X13.  With a positive piece size and the connection open, no state of a
    transfer is a dead end: the transfer can go on until [sendFile] has
    returned and the end marker has been delivered. *)
Theorem X13_can_always_complete w :
  reachable w -> open w = true ->
  exists w', steps w w' /\ pipeline w' = Returned /\ In eof (receiver_inbox w').
Proof.
  intros R O.
  destruct (settle R O) as (w1 & S1 & R1 & O1 & D1 & P1 & B1).
  assert (G : exists w2,
             steps w1 w2 /\ reachable w2 /\ open w2 = true /\
             ((exists offset index, pipeline w2 = LoopTest offset index) \/
              pipeline w2 = Returned)).
  { destruct (pipeline w1) as [| offset index | offset index pending |] eqn:P.
    - destruct (fire w1 Resume) as [w2 |] eqn:F;
        [| simpl in F; rewrite P in F; discriminate F].
      assert (St : step w1 w2) by (exists Resume; exact F).
      exists w2. split; [apply steps_step with w1; [constructor | exact St] |].
      split; [exact (reachable_step R1 St) |].
      simpl in F. rewrite P in F. simpl in F. injection F as <-. simpl.
      split; [exact O1 | left; eauto].
    - exists w1. split; [constructor |]. split; [exact R1 |].
      split; [exact O1 | left; eauto].
    - destruct B1 as [B1 | B1]; [| discriminate B1].
      destruct (fire w1 Resume) as [w2 |] eqn:F.
      2:{ simpl in F. rewrite P in F. simpl in F. rewrite B1 in F.
          destruct pending; discriminate F. }
      assert (St : step w1 w2) by (exists Resume; exact F).
      exists w2. split; [apply steps_step with w1; [constructor | exact St] |].
      split; [exact (reachable_step R1 St) |].
      simpl in F. rewrite P in F. simpl in F. rewrite B1 in F.
      destruct pending; injection F as <-; simpl;
        (split; [exact O1 |]); [left; eauto | right; reflexivity].
    - exists w1. split; [constructor |]. split; [exact R1 |].
      split; [exact O1 | right; exact P]. }
  destruct G as (w2 & S2 & R2 & O2 & P2).
  destruct (settle R2 O2) as (w3 & S3 & R3 & O3 & D3 & P3 & B3).
  rewrite <- P3 in P2.
  destruct (finish_from_loop R3 O3 D3 B3 P2) as (w' & S' & P' & I').
  exists w'. split; [| auto].
  apply steps_append with w3; [| exact S'].
  apply steps_append with w2; [| exact S3].
  apply steps_append with w1; assumption.
Qed.

End NeverStuck.


(* ================================================================== *)
(** * The buttons and the connection state *)

Module UIFacts.
Import UI.

Lemma onData_keeps r msg : Forall keeps (snd (onData r msg)).
Proof.
  destruct msg as [m | i p | | i]; simpl.
  - repeat constructor.
  - destruct (metaRef r); simpl; repeat constructor.
  - destruct (metaRef r); simpl; repeat constructor.
  - constructor.
Qed.

Lemma sendFile_keeps chunk_size f c p r p' r' es :
  sendFile chunk_size f c p r = Some (p', r', es) -> Forall keeps es.
Proof.
  destruct p as [| offset index | offset index [buf |] |]; simpl.
  - intros E. injection E as _ _ <-. repeat constructor.
  - destruct (offset <? file_size f); intros E; injection E as _ _ <-; constructor.
  - destruct (busyRef r); [discriminate |]. intros E. injection E as _ _ <-.
    repeat constructor.
  - destruct (busyRef r); [discriminate |]. intros E. injection E as _ _ <-.
    repeat constructor.
  - discriminate.
Qed.

Lemma last_default (A : Type) (l : list A) : forall x d1 d2 : A,
  last (x :: l) d1 = last (x :: l) d2.
Proof.
  induction l as [| y l IH]; intros x d1 d2; [reflexivity |].
  apply (IH y).
Qed.

Lemma renders_keeps es : forall v,
  Forall keeps es ->
  (forall v', In v' (renders v es) ->
              connected v' = connected v /\ conn v' = conn v /\ file v' = file v) /\
  connected (last_of v (renders v es)) = connected v /\
  conn (last_of v (renders v es)) = conn v /\
  file (last_of v (renders v es)) = file v.
Proof.
  unfold last_of.
  induction es as [| e es IH]; intros v K.
  { simpl. split; [intros ? [] | auto]. }
  inversion K as [| ? ? Ke Kes]; subst.
  assert (S : connected (set v e) = connected v /\ conn (set v e) = conn v /\
              file (set v e) = file v).
  { destruct e; simpl in *; try contradiction; auto. }
  destruct S as (S1 & S2 & S3).
  destruct (IH (set v e) Kes) as (A & B & C & D).
  assert (L : last (renders v (e :: es)) v = last (renders (set v e) es) (set v e)).
  { simpl. destruct (renders (set v e) es) eqn:E; [reflexivity |].
    apply last_default. }
  rewrite L. split; [| repeat split; congruence].
  intros v' [<- | I]; [auto |].
  destruct (A _ I) as (X & Y & Z). repeat split; congruence.
Qed.

Lemma keeps_settled v es :
  settled v -> Forall keeps es ->
  (forall v', In v' (renders v es) -> consistent v') /\
  settled (last_of v (renders v es)).
Proof.
  intros [S1 S2] K. destruct (renders_keeps v K) as (A & B & C & _).
  unfold settled, consistent. rewrite B, C. split; [| split; assumption].
  intros v' I. destruct (A _ I) as (X & Y & _). rewrite X, Y. exact S1.
Qed.

Lemma callback_settled v cb :
  settled v ->
  (forall v', In v' (callback v cb) -> consistent v') /\
  settled (last_of v (callback v cb)).
Proof.
  intros St. assert (St' := St). destruct St' as [S1 S2].
  destruct cb; simpl;
    try (unfold last_of, settled, consistent; simpl;
         split; [intros v' [<- | []]; simpl; assumption | split; assumption]).
  - unfold last_of, settled, consistent. simpl. split.
    + intros v' [<- | [<- | [<- | []]]]; simpl; intros _; discriminate.
    + split; [intros _; discriminate | reflexivity].
  - unfold last_of, settled, consistent. simpl. split.
    + intros v' [<- | [<- | [<- | []]]]; simpl; [discriminate | discriminate | discriminate].
    + split; [discriminate | intros C; contradiction C; reflexivity].
  - apply keeps_settled; [exact St | apply onData_keeps].
  - destruct (sendFile chunk_size f c p r) as [[[p' r'] es] |] eqn:E.
    + apply keeps_settled; [exact St | exact (sendFile_keeps _ _ _ _ _ E)].
    + unfold last_of. simpl. split; [intros ? [] | exact St].
  - unfold connect, last_of.
    destruct (negb (peerRef v) || String.eqb (remoteId v) EmptyString)%bool;
      simpl; (split; [intros v' [<- | []]; exact S1 | exact St]).
  - unfold last_of, settled, consistent. simpl. split.
    + intros v' [<- | []]. simpl. discriminate.
    + split; [discriminate | intros C; contradiction C; reflexivity].
Qed.

Lemma session_settled cbs : forall v,
  settled v ->
  (forall v', In v' (session v cbs) -> consistent v') /\
  settled (after v cbs).
Proof.
  induction cbs as [| cb cbs IH]; intros v St; simpl.
  - split; [intros ? [] | exact St].
  - destruct (callback_settled cb St) as [A B].
    destruct (IH _ B) as [C D]. split; [| exact D].
    intros v' I. apply in_app_or in I. destruct I as [I | I]; auto.
Qed.

Lemma settled_initial : settled initial.
Proof. split; [discriminate | intros C; contradiction C; reflexivity]. Qed.

End UIFacts.

(** X14.  In every state rendered, from the mounting of [App] on and
    whatever callbacks run in whatever order, a "Send File" button that is
    not disabled means that the guard of [sendFile] passes: [connected] is
    never true while [conn] is null, not even between two setters of a
    listener; and between callbacks [connected] is true exactly when [conn]
    holds a connection. *)
Theorem X14_send_button_guard (cbs : list UI.Callback) :
  (forall v, In v (UI.initial :: UI.session UI.initial cbs) ->
             UI.send_disabled v = false -> UI.sendFile_guard v <> None) /\
  (UI.connected (UI.after UI.initial cbs) = true <->
   UI.conn (UI.after UI.initial cbs) <> None).
Proof.
  destruct (UIFacts.session_settled cbs UIFacts.settled_initial) as [A B].
  split; [| exact B].
  intros v I D.
  assert (C : UI.consistent v).
  { destruct I as [<- | I]; [intros X; discriminate X | exact (A _ I)]. }
  unfold UI.send_disabled in D. unfold UI.sendFile_guard, UI.consistent in *.
  destruct (UI.connected v); [| discriminate D].
  destruct (UI.file v); [| discriminate D].
  destruct (UI.conn v); [discriminate | contradiction (C eq_refl); reflexivity].
Qed.

(* ================================================================== *)
(** * The further properties at the file of three bytes *)

Lemma mid_reachable : reachable 2 three_bytes 7%nat mid_world.
Proof.
  apply (@reachable_run 2 three_bytes 7%nat
           [Resume; Resume; Resume; ReceiverData] initial_world);
    [constructor | vm_compute; reflexivity].
Qed.

Lemma done_reachable : reachable 2 three_bytes 7%nat done_world.
Proof.
  apply (@reachable_run 2 three_bytes 7%nat lockstep initial_world);
    [constructor | vm_compute; reflexivity].
Qed.

(** Two of three bytes read 66, three of three read 100. *)
Lemma X1_percent_100_iff_witness :
  0 < 3 /\ 3 < 2 ^ 53 /\
  JS.percent 2 3 = JS.Int 66 /\
  (JS.percent 2 3 = JS.Int 100 <-> 3 <= 2) /\
  (JS.percent 3 3 = JS.Int 100 <-> 3 <= 3).
Proof.
  split; [reflexivity |]. split; [reflexivity |].
  split; [vm_compute; reflexivity |].
  split; exact (@X1_percent_100_iff _ 3 eq_refl eq_refl).
Defined.

(** A transfer of two pieces delivered to refs that hold a piece of another
    one. *)
Lemma X3_transfer_from_any_state_witness :
  Forall (fun m => is_chunk m = true)
         [chunk 0 [x61; x62]%byte; chunk 1 [x63]%byte] /\
  downloads
    (snd (handle_all refs_missing_pieces
            (meta big_descriptor
             :: [chunk 0 [x61; x62]%byte; chunk 1 [x63]%byte] ++ [eof])))
  = [("big.bin"%string, octet_stream, [x61; x62; x63]%byte)].
Proof.
  assert (C : Forall (fun m => is_chunk m = true)
                     [chunk 0 [x61; x62]%byte; chunk 1 [x63]%byte]).
  { repeat constructor. }
  split; [exact C |].
  exact (proj1 (@X3_transfer_from_any_state refs_missing_pieces big_descriptor _ C)).
Defined.

(** In the middle: the descriptor is acknowledged, piece 0 is on its way. *)
Lemma X5_acks_in_order_witness :
  reachable 2 three_bytes 7%nat mid_world /\
  sender_inbox mid_world ++ to_sender mid_world = [ack (-1)] /\
  reachable 2 three_bytes 7%nat done_world /\
  sender_inbox done_world ++ to_sender done_world = [ack (-1); ack 0; ack 1].
Proof.
  split; [exact mid_reachable |].
  split; [exact (X5_acks_in_order mid_reachable) |].
  split; [exact done_reachable |].
  exact (X5_acks_in_order done_reachable).
Defined.

Lemma X6_outstanding_bounds_witness :
  reachable 2 three_bytes 7%nat mid_world /\
  outstanding mid_world = 2%Z /\
  (0 <= outstanding mid_world <= 2)%Z.
Proof.
  split; [exact mid_reachable |]. split; [reflexivity |].
  exact (X6_outstanding_bounds mid_reachable).
Defined.

Lemma X7_eof_unacknowledged_witness :
  reachable 2 three_bytes 7%nat done_world /\
  pipeline done_world = Returned /\
  open done_world = true /\ to_receiver done_world = [] /\
  to_sender done_world = [] /\
  outstanding done_world = 1%Z.
Proof.
  split; [exact done_reachable |]. split; [reflexivity |].
  split; [reflexivity |]. split; [reflexivity |]. split; [reflexivity |].
  exact (proj2 (X7_eof_unacknowledged done_reachable eq_refl)
               eq_refl eq_refl eq_refl).
Defined.

Lemma X8_sent_is_a_prefix_witness :
  0 < 2 /\ reachable 2 three_bytes 7%nat mid_world /\
  whole_transfer 2 three_bytes
    = [meta (descriptor 2 three_bytes);
       chunk 0 [x61; x62]%byte; chunk 1 [x63]%byte; eof] /\
  exists rest,
    sent mid_world ++ rest = whole_transfer 2 three_bytes /\
    (pipeline mid_world = Returned <-> rest = []).
Proof.
  split; [reflexivity |]. split; [exact mid_reachable |].
  split; [reflexivity |].
  exact (@X8_sent_is_a_prefix 2 three_bytes 7%nat mid_world eq_refl mid_reachable).
Defined.

(** The second and last piece carries the third byte. *)
Lemma X9_piece_sizes_witness :
  0 < 2 /\ reachable 2 three_bytes 7%nat done_world /\
  (1 < List.length (pieces (sent done_world)))%nat /\
  byteLength (nth 1 (pieces (sent done_world)) []) = N.min 2 (3 - 1 * 2) /\
  1 <= byteLength (nth 1 (pieces (sent done_world)) []).
Proof.
  split; [reflexivity |]. split; [exact done_reachable |].
  assert (L : (1 < List.length (pieces (sent done_world)))%nat).
  { vm_compute. apply le_n. }
  split; [exact L |].
  exact (@X9_piece_sizes 2 three_bytes 7%nat done_world 1 eq_refl done_reachable L).
Defined.

Lemma X10_bars_agree_witness :
  reachable 2 three_bytes 7%nat done_world /\
  In eof (receiver_inbox done_world) /\
  exists rest,
    send_progress (sender_log done_world)
      = recv_progress (receiver_log done_world) ++ rest /\
    (In eof (receiver_inbox done_world) -> rest = []).
Proof.
  split; [exact done_reachable |].
  split; [simpl; auto |].
  exact (X10_bars_agree done_reachable).
Defined.

(** In the middle no piece is stored and the bar has not read 100. *)
Lemma X11_full_bar_iff_complete_witness :
  0 < file_size three_bytes /\ file_size three_bytes < 2 ^ 53 /\
  reachable 2 three_bytes 7%nat mid_world /\
  (In (JS.Int 100) (recv_progress (receiver_log mid_world)) <->
   List.concat (receiveBuffers (receiver_refs mid_world)) = file_bytes three_bytes).
Proof.
  split; [reflexivity |]. split; [reflexivity |].
  split; [exact mid_reachable |].
  exact (@X11_full_bar_iff_complete 2 three_bytes 7%nat mid_world
           eq_refl eq_refl mid_reachable).
Defined.

Lemma X12_stops_only_when_done_witness :
  reachable 2 three_bytes 7%nat done_world /\ open done_world = true /\
  pipeline done_world = Returned /\ drained done_world /\
  ((forall e, e <> Close -> fire 2 three_bytes 7%nat done_world e = None) <->
   (pipeline done_world = Returned /\ drained done_world)).
Proof.
  split; [exact done_reachable |]. split; [reflexivity |].
  split; [reflexivity |]. split; [split; reflexivity |].
  exact (X12_stops_only_when_done done_reachable eq_refl).
Defined.

Lemma X13_can_always_complete_witness :
  0 < 2 /\ reachable 2 three_bytes 7%nat mid_world /\ open mid_world = true /\
  exists w',
    steps 2 three_bytes 7%nat mid_world w' /\
    pipeline w' = Returned /\ In eof (receiver_inbox w').
Proof.
  split; [reflexivity |]. split; [exact mid_reachable |].
  split; [reflexivity |].
  exact (@X13_can_always_complete 2 three_bytes 7%nat eq_refl mid_world
           mid_reachable eq_refl).
Defined.

(** A peer that is connected to and then picks a file: the button is
    enabled in the last state rendered, and the guard passes there. *)
Lemma X14_send_button_guard_witness :
  UI.send_disabled
    (UI.after UI.initial
       [UI.Mounted; UI.PeerOpen; UI.Wire 7%nat; UI.ChooseFile (Some three_bytes)])
  = false /\
  UI.sendFile_guard
    (UI.after UI.initial
       [UI.Mounted; UI.PeerOpen; UI.Wire 7%nat; UI.ChooseFile (Some three_bytes)])
  <> None.
Proof.
  split; [reflexivity |].
  apply (proj1 (X14_send_button_guard
                  [UI.Mounted; UI.PeerOpen; UI.Wire 7%nat;
                   UI.ChooseFile (Some three_bytes)])).
  - vm_compute. tauto.
  - reflexivity.
Defined.

(* ================================================================== *)
(** * A close while the sender waits *)

Section Frozen.

Variable chunk_size : N.
Variable file : File.
Variable conn : DataConnection.

Local Abbreviation steps := (steps chunk_size file conn).
Local Abbreviation step := (step chunk_size file conn).



End Frozen.

(* ================================================================== *)
(** * A later call of [sendFile] *)

Section Restart.

Variable chunk_size : N.
Variable file : File.
Variable conn : DataConnection.

Local Abbreviation steps := (steps chunk_size file conn).
Local Abbreviation step := (step chunk_size file conn).

Lemma credit_flag r : (credit r + flag r = 1)%nat.
Proof. unfold credit, flag. destruct (busyRef r); reflexivity. Qed.

Lemma restarted_start w0 :
  to_sender w0 = [] -> acks_for (to_receiver w0) = [] ->
  restarted w0 (again w0).
Proof.
  intros Ts Tr. split; [simpl; rewrite Ts; constructor |].
  exists [], []. unfold sent. simpl. rewrite !app_nil_r, Ts, Tr.
  repeat split; [constructor | simpl; lia].
Qed.

Lemma restarted_step w0 w w' :
  restarted w0 w -> step w w' -> restarted w0 w'.
Proof.
  intros (A & ns & na & S & I & Na & L & P) [e F].
  unfold restarted, sent in *. destruct e; simpl in F.
  - (* the pipeline *)
    destruct (pipeline w) as [| offset index | offset index pending |] eqn:E;
      simpl in F.
    + injection F as <-. simpl. split; [exact A |].
      destruct P as [-> R]. exists [meta (descriptor chunk_size file)], na.
      rewrite sends_app, S, R. simpl. rewrite !app_nil_r.
      assert (C := credit_flag (sender_refs w0)).
      repeat split; try assumption.
      * simpl in L. unfold transmit. destruct (open w);
          [rewrite acks_for_app, length_app |]; simpl; lia.
      * lia.
    + destruct (offset <? file_size file); injection F as <-; simpl;
        (split; [exact A |]); exists ns, na; rewrite app_nil_r;
        (repeat split; try assumption);
        unfold transmit; destruct (open w); simpl; rewrite ?app_nil_r; exact L.
    + destruct (busyRef (sender_refs w)) eqn:B; [discriminate F |].
      unfold flag in P. rewrite B in P.
      destruct pending as [buf |]; injection F as <-; simpl;
        (split; [exact A |]).
      * exists (ns ++ [chunk (Z.of_N index) buf]), na.
        rewrite sends_app, S, app_assoc, !length_app. simpl.
        repeat split; try assumption.
        -- unfold transmit. destruct (open w);
             [rewrite acks_for_app, length_app |]; simpl; lia.
        -- unfold flag. simpl. lia.
      * exists (ns ++ [eof]), na.
        rewrite sends_app, S, app_assoc, !length_app. simpl.
        repeat split; try assumption.
        -- unfold transmit. destruct (open w);
             [rewrite acks_for_app, length_app |]; simpl; lia.
        -- unfold flag. simpl. lia.
    + discriminate F.
  - (* a delivery to the receiver *)
    destruct (open w); [| discriminate F].
    destruct (to_receiver w) as [| msg q] eqn:Q; [discriminate F |].
    assert (K := onData_sends_acks (receiver_refs w) msg).
    assert (M := onData_acks (receiver_refs w) msg).
    change (msg :: q) with ([msg] ++ q) in L.
    rewrite acks_for_app, length_app, <- M in L.
    destruct (onData (receiver_refs w) msg) as [r es]. injection F as <-.
    simpl in K, M, L |- *. split; [apply acks_only_app; assumption |].
    exists ns, na. repeat split; try assumption.
    rewrite length_app. lia.
  - (* a delivery to the sender *)
    destruct (open w); [| discriminate F].
    destruct (to_sender w) as [| msg q] eqn:Q; [discriminate F |].
    inversion A as [| ? ? Hm Hq]; subst.
    destruct msg as [| | | i]; try discriminate Hm.
    simpl in F. injection F as <-. simpl. split; [exact Hq |].
    exists ns, (na ++ [ack i]).
    rewrite I, <- app_assoc, app_nil_r, length_app. simpl in *.
    repeat split; try assumption.
    + apply acks_only_app; [exact Na | repeat constructor].
    + rewrite app_nil_r. lia.
    + destruct (pipeline w).
      * destruct P as [-> _]. simpl in L. lia.
      * unfold flag in *. simpl. destruct (busyRef (sender_refs w)); lia.
      * unfold flag in *. simpl. destruct (busyRef (sender_refs w)); lia.
      * unfold flag in *. simpl. destruct (busyRef (sender_refs w)); lia.
  - (* the close *)
    destruct (open w); [| discriminate F]. injection F as <-. simpl.
    split; [exact A |]. exists ns, na.
    rewrite sends_app. simpl. rewrite app_nil_r.
    repeat split; assumption.
Qed.

(** X16.  [sendFile] called again after it has returned, when no
    acknowledgement is due: of what the new call sends, the messages
    unacknowledged are one at most if the flag was set at the call, two at
    most if it was clear, and one less whenever the flag is clear. *)
Theorem X16_window_of_a_later_call w0 w :
  pipeline w0 = Returned ->
  to_sender w0 = [] -> acks_for (to_receiver w0) = [] ->
  steps (again w0) w ->
  (outstanding w0 <= outstanding w
   <= outstanding w0 + Z.of_nat (credit (sender_refs w0))
      + Z.of_nat (flag (sender_refs w)))%Z.
Proof.
  intros _ Ts Tr S.
  assert (G : restarted w0 w).
  { induction S as [| w1 w2 _ IH St]; [apply restarted_start; assumption |].
    exact (restarted_step IH St). }
  destruct G as (_ & ns & na & Sn & I & Na & L & P).
  unfold outstanding, acknowledged. rewrite Sn, I, filter_app, !length_app.
  rewrite (filter_acks_only Na).
  destruct (pipeline w).
  - destruct P as [-> _]. simpl in L. destruct na; [simpl; lia | simpl in L; lia].
  - lia.
  - lia.
  - lia.
Qed.

End Restart.


(** The second transfer after [lockstep], which leaves the flag set: one
    message more is unacknowledged, and the pipeline waits. *)
Lemma X16_window_of_a_later_call_witness :
  pipeline done_world = Returned /\
  to_sender done_world = [] /\ acks_for (to_receiver done_world) = [] /\
  busyRef (sender_refs done_world) = true /\
  steps 2 three_bytes 7%nat (again done_world) second_world /\
  outstanding second_world = 2%Z /\
  (outstanding done_world <= outstanding second_world
   <= outstanding done_world + Z.of_nat (credit (sender_refs done_world))
      + Z.of_nat (flag (sender_refs second_world)))%Z.
Proof.
  assert (S : steps 2 three_bytes 7%nat (again done_world) second_world).
  { apply (@run_steps 2 three_bytes 7%nat [Resume; Resume]).
    vm_compute. reflexivity. }
  split; [reflexivity |].
  split; [reflexivity |]. split; [reflexivity |]. split; [reflexivity |].
  split; [exact S |]. split; [reflexivity |].
  exact (@X16_window_of_a_later_call 2 three_bytes 7%nat done_world second_world
           eq_refl eq_refl eq_refl S).
Defined.
